(** * huh: the select field (field_select.go)

    A shallow embedding of [Select[T]], the single-choice field of the form
    library, and of the properties its description states about it.  The
    field is a Go struct reached through a pointer; its methods are modelled
    as functions from the field record to the updated record, threaded
    through a small world that holds what the field shares with its
    surroundings: the heap of bound-value cells ([*T]), the log of validator
    calls and the lines written to standard output.  A call ends with a
    result, with a panic, or waiting for input.  [Run], which starts the
    program loop of another file, is left out. *)

From Stdlib Require Import ZArith Lia Ascii String.
From stdpp Require Import base option list strings pretty gmap.

Local Open Scope Z_scope.

(** ** Go's [int] on a 64-bit target *)

Module GoInt.

Definition min_int : Z := - 2 ^ 63.
Definition max_int : Z := 2 ^ 63 - 1.

(** Two's-complement wrap-around of an arbitrary integer. *)
Definition wrap (z : Z) : Z := (z + 2 ^ 63) `mod` 2 ^ 64 - 2 ^ 63.

Definition add (x y : Z) : Z := wrap (x + y).
Definition sub (x y : Z) : Z := wrap (x - y).

(** [len] of a slice; a slice never holds more than [max_int] elements. *)
Definition len {A} (l : list A) : Z := Z.of_nat (length l).

Definition in_range (z : Z) : Prop := min_int <= z <= max_int.

End GoInt.

(** ** Collaborators that live outside field_select.go *)

(** Modelled from the spec: the declaration of [Option[T]] is in another
    file of the package; it is the pair "{ key: string (display label),
    value: T }", built in [NewSelect] as [Option[T]{Key: ..., Value: ...}]. *)
Module Option.
Record t (T : Type) := mk { Key : string; Value : T }.
Arguments mk {T} _ _.
Arguments Key {T} _.
Arguments Value {T} _.
End Option.

(** The key bindings of the bubbles library: a binding is a list of key
    names and a disabled flag; a key message matches a binding when the
    binding is enabled and lists the message's name. *)
Module key.
Record Binding := mkBinding { keys : list string; disabled : bool }.

Definition Enabled (b : Binding) : bool :=
  negb (disabled b) && negb (bool_decide (keys b = [])).

Definition Matches (k : string) (b : Binding) : bool :=
  existsb (fun v => bool_decide (k = v) && Enabled b) (keys b).
End key.

(** Modelled from the spec: the declaration of [SelectKeyMap] is in another
    file of the package; it "supplies the four logical actions {move-up,
    move-down, retreat, advance} as bindings", read by [Update] and
    [KeyBinds] as the fields [Up], [Down], [Prev] and [Next]. *)
Record SelectKeyMap := mkSelectKeyMap {
  Up : key.Binding;
  Down : key.Binding;
  Next : key.Binding;
  Prev : key.Binding
}.

(** Modelled from the spec: the form's [KeyMap], of which [WithKeyMap]
    takes the [Select] field. *)
Record KeyMap := mkKeyMap { KeyMap_Select : SelectKeyMap }.

(** A style of the lipgloss library, used here only through [Render]. *)
Module lipgloss.
Record Style := mkStyle { Render : string -> string }.
End lipgloss.

(** Modelled from the spec: the declaration of [Theme] is in another file
    of the package; it "supplies rendering styles", as "a style set keyed by
    {focused, blurred}".  Of each set, [runAccessible] uses [Base] and
    [Title]. *)
Module FieldStyles.
Record t := mk { Base : lipgloss.Style; Title : lipgloss.Style }.
End FieldStyles.

Record Theme := mkTheme { Focused : FieldStyles.t; Blurred : FieldStyles.t }.

(** A message of the bubbletea program loop: a key press, named by
    [KeyMsg.String()], or anything else the loop delivers. *)
Inductive Msg :=
  | KeyMsg (k : string)
  | OtherMsg (what : string).

(** Modelled from the spec: [nextField] and [prevField] are declared in
    another file of the package; they are the two navigation signals,
    "advance" and "retreat", that a field hands back to its container. *)
Inductive Cmd := nextField | prevField.

(** An [error] value, [None] for [nil]; the string is [err.Error()]. *)
Definition goerror : Type := option string.

(** What a value type must offer: its zero value ([new(T)]) and [fmt.Sprint]. *)
Class GoType (T : Type) := { zero_value : T; Sprint : T -> string }.

#[export] Instance string_GoType : GoType string :=
  {| zero_value := ""%string; Sprint := fun s => s |}.

Definition newline : string := String "010"%char EmptyString.

(** ** The world a field runs in, and the monad that threads it *)

Definition loc := positive.

Inductive Panic :=
  | NilDereference
  | IndexOutOfRange (i : Z) (n : Z).

Section Field.
Context {T : Type} `{GoType T}.

Record World := mkWorld {
  heap : gmap loc T;          (* the cells behind every [*T] *)
  validated : list T;         (* arguments of the validator calls, oldest first *)
  stdout : list string        (* what was written, one entry per call *)
}.

Inductive Outcome (A : Type) :=
  | Ok (a : A) (w : World)
  | Panicked (p : Panic)
  | AwaitingInput (w : World).
Arguments Ok {A} _ _.
Arguments Panicked {A} _.
Arguments AwaitingInput {A} _.

Definition M (A : Type) : Type := World -> Outcome A.

Definition ret {A} (a : A) : M A := fun w => Ok a w.

Definition bind {A B} (m : M A) (k : A -> M B) : M B :=
  fun w =>
    match m w with
    | Ok a w' => k a w'
    | Panicked p => Panicked p
    | AwaitingInput w' => AwaitingInput w'
    end.

Local Notation "'do' x <- m ; k" := (bind m (fun x => k))
  (at level 10, x name, m at level 100, k at level 200).
Local Notation "'run' m ; k" := (bind m (fun _ => k))
  (at level 10, m at level 100, k at level 200).

(** World updates, named. *)
Definition logged (w : World) (vs : list T) : World :=
  {| heap := heap w; validated := validated w ++ vs; stdout := stdout w |}.
Definition written (w : World) (l : loc) (v : T) : World :=
  {| heap := <[l := v]> (heap w); validated := validated w; stdout := stdout w |}.
Definition printed (w : World) (lines : list string) : World :=
  {| heap := heap w; validated := validated w; stdout := stdout w ++ lines |}.

(** [*p] *)
Definition load (p : option loc) : M T :=
  fun w =>
    match p with
    | None => Panicked NilDereference
    | Some l =>
        match heap w !! l with
        | Some v => Ok v w
        | None => Panicked NilDereference
        end
    end.

(** [*p = v] *)
Definition store (p : option loc) (v : T) : M unit :=
  fun w =>
    match p with
    | None => Panicked NilDereference
    | Some l =>
        Ok tt (written w l v)
    end.

(** [new(T)] *)
Definition new : M loc :=
  fun w =>
    let l := fresh (dom (heap w)) in
    Ok l (written w l zero_value).

(** [f(v)] for a validator [f]: the call is logged, its answer returned. *)
Definition call (f : option (T -> goerror)) (v : T) : M goerror :=
  fun w =>
    match f with
    | None => Panicked NilDereference
    | Some f =>
        Ok (f v) (logged w [v])
    end.

(** [fmt.Println(s)] *)
Definition Println (s : string) : M unit :=
  fun w =>
    Ok tt (printed w [s +:+ newline]).

(** [xs[i]] with Go's bounds check. *)
Definition index {A} (xs : list A) (i : Z) : M A :=
  fun w =>
    if (0 <=? i) && (i <? GoInt.len xs) then
      match xs !! Z.to_nat i with
      | Some x => Ok x w
      | None => Panicked (IndexOutOfRange i (GoInt.len xs))
      end
    else Panicked (IndexOutOfRange i (GoInt.len xs)).

(** [p.field] through a pointer that may be nil. *)
Definition deref {A} (p : option A) : M A :=
  fun w => match p with Some a => Ok a w | None => Panicked NilDereference end.

(** ** The field *)

Record Select := mkSelect {
  value : option loc;
  title : string;
  description : string;
  options : list (Option.t T);
  validate : option (T -> goerror);
  err : goerror;
  selected : Z;
  focused : bool;
  width : Z;
  accessible : bool;
  theme : option Theme;
  keymap : option SelectKeyMap
}.

Definition set_value (s : Select) (p : option loc) : Select :=
  mkSelect p (title s) (description s) (options s) (validate s) (err s)
           (selected s) (focused s) (width s) (accessible s) (theme s) (keymap s).
Definition set_title (s : Select) (x : string) : Select :=
  mkSelect (value s) x (description s) (options s) (validate s) (err s)
           (selected s) (focused s) (width s) (accessible s) (theme s) (keymap s).
Definition set_description (s : Select) (x : string) : Select :=
  mkSelect (value s) (title s) x (options s) (validate s) (err s)
           (selected s) (focused s) (width s) (accessible s) (theme s) (keymap s).
Definition set_options (s : Select) (x : list (Option.t T)) : Select :=
  mkSelect (value s) (title s) (description s) x (validate s) (err s)
           (selected s) (focused s) (width s) (accessible s) (theme s) (keymap s).
Definition set_validate (s : Select) (x : option (T -> goerror)) : Select :=
  mkSelect (value s) (title s) (description s) (options s) x (err s)
           (selected s) (focused s) (width s) (accessible s) (theme s) (keymap s).
Definition set_err (s : Select) (x : goerror) : Select :=
  mkSelect (value s) (title s) (description s) (options s) (validate s) x
           (selected s) (focused s) (width s) (accessible s) (theme s) (keymap s).
Definition set_selected (s : Select) (x : Z) : Select :=
  mkSelect (value s) (title s) (description s) (options s) (validate s) (err s)
           x (focused s) (width s) (accessible s) (theme s) (keymap s).
Definition set_focused (s : Select) (x : bool) : Select :=
  mkSelect (value s) (title s) (description s) (options s) (validate s) (err s)
           (selected s) x (width s) (accessible s) (theme s) (keymap s).
Definition set_width (s : Select) (x : Z) : Select :=
  mkSelect (value s) (title s) (description s) (options s) (validate s) (err s)
           (selected s) (focused s) x (accessible s) (theme s) (keymap s).
Definition set_accessible (s : Select) (x : bool) : Select :=
  mkSelect (value s) (title s) (description s) (options s) (validate s) (err s)
           (selected s) (focused s) (width s) x (theme s) (keymap s).
Definition set_theme (s : Select) (x : option Theme) : Select :=
  mkSelect (value s) (title s) (description s) (options s) (validate s) (err s)
           (selected s) (focused s) (width s) (accessible s) x (keymap s).
Definition set_keymap (s : Select) (x : option SelectKeyMap) : Select :=
  mkSelect (value s) (title s) (description s) (options s) (validate s) (err s)
           (selected s) (focused s) (width s) (accessible s) (theme s) x.

(** The validator every new field starts with: [func(T) error { return nil }]. *)
Definition always_valid : T -> goerror := fun _ => None.

(** [NewSelect(options...)] *)
Definition NewSelect (opts : list T) : M Select :=
  let opts := map (fun option => Option.mk (Sprint option) option) opts in
  do p <- new;
  ret (mkSelect (Some p) "" "" opts (Some always_valid) None
                0 false 0 false None None).

(** The chainable setters. *)
Definition Value (s : Select) (v : option loc) : Select := set_value s v.
Definition Title (s : Select) (x : string) : Select := set_title s x.
Definition Description (s : Select) (x : string) : Select := set_description s x.
Definition Options (s : Select) (x : list (Option.t T)) : Select := set_options s x.
Definition Validate (s : Select) (f : option (T -> goerror)) : Select := set_validate s f.
Definition WithTheme (s : Select) (t : option Theme) : Select := set_theme s t.
Definition WithKeyMap (s : Select) (k : KeyMap) : Select :=
  set_keymap s (Some (KeyMap_Select k)).
Definition WithAccessible (s : Select) (b : bool) : Select := set_accessible s b.
Definition WithWidth (s : Select) (n : Z) : Select := set_width s n.

(** [Error()] *)
Definition Error (s : Select) : goerror := err s.

(** [Focus()]: the field and the command it returns. *)
Definition Focus (s : Select) : M (Select * option Cmd) :=
  let s := set_focused s true in
  ret (s, None).

(** [Blur()] *)
Definition Blur (s : Select) : M (Select * option Cmd) :=
  let s := set_focused s false in
  do v <- load (value s);
  do e <- call (validate s) v;
  let s := set_err s e in
  ret (s, None).

(** [KeyBinds()] *)
Definition KeyBinds (s : Select) : M (list key.Binding) :=
  do km <- deref (keymap s);
  ret [Up km; Down km; Next km; Prev km].

(** [Init()] *)
Definition Init (s : Select) : option Cmd := None.

(** [Update(msg)] *)
Definition Update (s : Select) (msg : Msg) : M (Select * option Cmd) :=
  match msg with
  | KeyMsg k =>
      let s := set_err s None in
      do km <- deref (keymap s);
      if key.Matches k (Up km) then
        let s := set_selected s (Z.max (GoInt.sub (selected s) 1) 0) in
        ret (s, None)
      else if key.Matches k (Down km) then
        let s := set_selected s
                   (Z.min (GoInt.add (selected s) 1)
                          (GoInt.sub (GoInt.len (options s)) 1)) in
        ret (s, None)
      else if key.Matches k (Prev km) then
        ret (s, Some prevField)
      else if key.Matches k (Next km) then
        do option <- index (options s) (selected s);
        let val := Option.Value option in
        do e <- call (validate s) val;
        let s := set_err s e in
        match e with
        | Some _ => ret (s, None)
        | None =>
            run store (value s) val;
            ret (s, Some nextField)
        end
      else ret (s, None)
  | OtherMsg _ => ret (s, None)
  end.

(** Modelled from the spec: accessibility.PromptInt lives in another
    package of the repository.  It prompts "for an integer selection
    restricted to the valid index range"; an entry outside [lo, hi] "is
    rejected and re-prompted".  [PromptInt_accepts] is that test on one
    entry typed by the user. *)
Definition PromptInt_accepts (lo hi : Z) (entry : Z) : bool :=
  (lo <=? entry) && (entry <=? hi).

(** The numbered listing built by the [range] loop of [runAccessible],
    from index [i] on. *)
Fixpoint listing (i : Z) (opts : list (Option.t T)) : string :=
  match opts with
  | [] => ""
  | option :: opts =>
      pretty (GoInt.add i 1) +:+ ". " +:+ Option.Key option +:+ newline
        +:+ listing (i + 1) opts
  end.

(** The [for { ... }] loop of [runAccessible], run against the integers the
    user types, in order.  With nothing left to read the program sits in
    [PromptInt], waiting. *)
Fixpoint promptLoop (s : Select) (entries : list Z) : M goerror :=
  match entries with
  | [] => fun w => AwaitingInput w
  | choice :: entries =>
      if PromptInt_accepts 1 (GoInt.len (options s)) choice then
        do option <- index (options s) (GoInt.sub choice 1);
        do e <- call (validate s) (Option.Value option);
        match e with
        | Some msg =>
            run Println msg;
            promptLoop s entries
        | None =>
            run Println ("Chose: " +:+ Option.Key option +:+ newline);
            run store (value s) (Option.Value option);
            ret None
        end
      else promptLoop s entries
  end.

(** [runAccessible()] *)
Definition runAccessible (s : Select) (entries : list Z) : M goerror :=
  do th <- deref (theme s);
  let sb := lipgloss.Render (FieldStyles.Title (Focused th)) (title s)
              +:+ newline +:+ listing 0 (options s) in
  run Println (lipgloss.Render (FieldStyles.Base (Blurred th)) sb);
  promptLoop s entries.

(** ** The container's side: resolving keys and dispatching calls *)

(** The four logical actions of the key map. *)
Inductive Action := MoveUp | MoveDown | Retreat | Advance | Unbound.

(** The action a key press resolves to: the first binding it matches, in
    the order [Update] tries them. *)
Definition action (km : SelectKeyMap) (k : string) : Action :=
  if key.Matches k (Up km) then MoveUp
  else if key.Matches k (Down km) then MoveDown
  else if key.Matches k (Prev km) then Retreat
  else if key.Matches k (Next km) then Advance
  else Unbound.

(** What a container may call on a field between two renderings. *)
Inductive Call :=
  | CallFocus
  | CallBlur
  | CallUpdate (msg : Msg).

Definition dispatch (s : Select) (c : Call) : M (Select * option Cmd) :=
  match c with
  | CallFocus => Focus s
  | CallBlur => Blur s
  | CallUpdate msg => Update s msg
  end.

(** A sequence of calls, each on the field the previous one left; the
    signals are collected in the order they were emitted. *)
Fixpoint drive (s : Select) (calls : list Call) : M (Select * list Cmd) :=
  match calls with
  | [] => ret (s, [])
  | c :: calls =>
      do r <- dispatch s c;
      do r' <- drive (fst r) calls;
      ret (fst r', option_list (snd r) ++ snd r')
  end.

Definition Updates (s : Select) (msgs : list Msg) : M (Select * list Cmd) :=
  drive s (map CallUpdate msgs).

(** ** What the claims speak of *)

(** The cursor a move leaves, in the words of the state machine: move-up is
    [max(cursor-1, 0)], move-down is [min(cursor+1, len(options)-1)], over
    the integers. *)
Definition clamp_move (km : SelectKeyMap) (n : Z) (cursor : Z) (msg : Msg) : Z :=
  match msg with
  | KeyMsg k =>
      match action km k with
      | MoveUp => Z.max (cursor - 1) 0
      | MoveDown => Z.min (cursor + 1) (n - 1)
      | _ => cursor
      end
  | OtherMsg _ => cursor
  end.

Definition is_move (km : SelectKeyMap) (msg : Msg) : Prop :=
  exists k, msg = KeyMsg k /\ (action km k = MoveUp \/ action km k = MoveDown).

(** An event outside the four actions: a message that is no key press, or a
    key press that matches none of the four bindings. *)
Definition unrelated (s : Select) (msg : Msg) : Prop :=
  match msg with
  | KeyMsg k => exists km, keymap s = Some km /\ action km k = Unbound
  | OtherMsg _ => True
  end.

(** What [runAccessible] prints before it prompts. *)
Definition banner (s : Select) (th : Theme) : string :=
  lipgloss.Render (FieldStyles.Base (Blurred th))
    (lipgloss.Render (FieldStyles.Title (Focused th)) (title s)
       +:+ newline +:+ listing 0 (options s))
  +:+ newline.

(** ** A field left with the validator it was constructed with *)

(** The shape such a field keeps under every call: key map [km] installed,
    the constructor's validator, bound to cell [l], no error recorded, the
    cursor on an option. *)
Definition default_inv (km : SelectKeyMap) (l : loc) (s : Select) : Prop :=
  keymap s = Some km /\ validate s = Some always_valid /\ value s = Some l /\
  err s = None /\ 0 <= selected s < GoInt.len (options s) /\
  GoInt.len (options s) <= GoInt.max_int.

End Field.

Arguments Ok {T A} a w.
Arguments Panicked {T A} p.
Arguments AwaitingInput {T A} w.

(** ** Rendering *)

(** Modelled from the spec: the theme's style sets are declared in another
    file of the package; the theme "supplies rendering styles" and the
    field "renders purely by delegation".  Besides [Base] and [Title],
    [View] reads the styles below from the set in use: [ErrorIndicator] and
    [SelectSelector] through [String()], whose text is kept here, the
    others through [Render]. *)
Module ViewStyles.
Record t := mk {
  ErrorIndicator : string;
  Description : lipgloss.Style;
  SelectSelector : string;
  SelectedOption : lipgloss.Style;
  Option : lipgloss.Style
}.
End ViewStyles.

(** [strings.Repeat(s, count)], for a count that is not negative. *)
Fixpoint Repeat (s : string) (count : nat) : string :=
  match count with
  | O => ""%string
  | S count => s +:+ Repeat s count
  end.

Section Rendering.
Context {T : Type}.

(** The styles of a set that [FieldStyles.t] does not list. *)
Variable more_styles : FieldStyles.t -> ViewStyles.t.

(** [lipgloss.Width]: the number of cells a text takes on screen. *)
Variable Width : string -> nat.

(** What the [range] loop of [View] writes from index [i] on. *)
Fixpoint viewOptions (s : @Select T) (styles : FieldStyles.t) (c : string)
    (i : Z) (opts : list (Option.t T)) : string :=
  match opts with
  | [] => ""%string
  | option :: opts =>
      (if selected s =? i then
         c +:+ lipgloss.Render (ViewStyles.SelectedOption (more_styles styles))
                 (Option.Key option)
       else
         Repeat " " (Width c)
           +:+ lipgloss.Render (ViewStyles.Option (more_styles styles))
                 (Option.Key option))
      +:+ (if i <? GoInt.sub (GoInt.len (options s)) 1 then newline else ""%string)
      +:+ viewOptions s styles c (i + 1) opts
  end.

(** [View()] *)
Definition View (s : @Select T) : @M T string :=
  bind (deref (theme s)) (fun th =>
  let styles := if focused s then Focused th else Blurred th in
  let c := ViewStyles.SelectSelector (more_styles styles) in
  let sb :=
    lipgloss.Render (FieldStyles.Title styles) (title s)
    +:+ (match err s with
         | Some _ => ViewStyles.ErrorIndicator (more_styles styles)
         | None => ""%string
         end)
    +:+ newline
    +:+ (if bool_decide (description s = ""%string) then ""%string
         else lipgloss.Render (ViewStyles.Description (more_styles styles))
                (description s) +:+ newline)
    +:+ viewOptions s styles c 0 (options s) in
  ret (lipgloss.Render (FieldStyles.Base styles) sb)).

(** The row [View] shows for option number [i], and what it shows above the
    rows. *)
Definition view_row (s : @Select T) (styles : FieldStyles.t) (i : nat)
    (option : Option.t T) : string :=
  let c := ViewStyles.SelectSelector (more_styles styles) in
  if selected s =? Z.of_nat i then
    c +:+ lipgloss.Render (ViewStyles.SelectedOption (more_styles styles))
            (Option.Key option)
  else
    Repeat " " (Width c)
      +:+ lipgloss.Render (ViewStyles.Option (more_styles styles)) (Option.Key option).

Definition view_plain_row (styles : FieldStyles.t) (option : Option.t T) : string :=
  Repeat " " (Width (ViewStyles.SelectSelector (more_styles styles)))
    +:+ lipgloss.Render (ViewStyles.Option (more_styles styles)) (Option.Key option).

Definition view_header (s : @Select T) (styles : FieldStyles.t) : string :=
  lipgloss.Render (FieldStyles.Title styles) (title s)
  +:+ (match err s with
       | Some _ => ViewStyles.ErrorIndicator (more_styles styles)
       | None => ""%string
       end)
  +:+ newline
  +:+ (if bool_decide (description s = ""%string) then ""%string
       else lipgloss.Render (ViewStyles.Description (more_styles styles))
              (description s) +:+ newline).

End Rendering.

(** ** More of what the facts speak of *)

Section FieldShapes.
Context {T : Type}.

(** A field that can take every call: key map, validator and bound cell in
    place, the cursor on an option. *)
Definition well_formed (km : SelectKeyMap) (l : loc) (f : T -> goerror)
    (s : @Select T) : Prop :=
  keymap s = Some km /\ validate s = Some f /\ value s = Some l /\
  0 <= selected s < GoInt.len (options s) /\
  GoInt.len (options s) <= GoInt.max_int.

(** The option the accessible path settles on: the first entry that is an
    option number and whose value the validator accepts. *)
Fixpoint first_accepted (f : T -> goerror) (opts : list (Option.t T))
    (entries : list Z) : option (Option.t T) :=
  match entries with
  | [] => None
  | c :: entries =>
      if PromptInt_accepts 1 (GoInt.len opts) c then
        match opts !! Z.to_nat (c - 1) with
        | Some o =>
            match f (Option.Value o) with
            | None => Some o
            | Some _ => first_accepted f opts entries
            end
        | None => first_accepted f opts entries
        end
      else first_accepted f opts entries
  end.

(** The lines of the numbered listing, one per option. *)
Definition listing_lines (opts : list (Option.t T)) : list string :=
  imap (fun i option =>
          pretty (Z.of_nat i + 1) +:+ ". " +:+ Option.Key option +:+ newline)
       opts.

End FieldShapes.

(** ** The example form: choosing a class *)

Local Open Scope string_scope.
Local Open Scope Z_scope.
Local Open Scope list_scope.

(** The key map of the select field: arrows or k/j to move, enter to go on,
    shift+tab to go back. *)
Definition select_keys : SelectKeyMap :=
  {| Up := key.mkBinding ["up"; "k"] false;
     Down := key.mkBinding ["down"; "j"] false;
     Next := key.mkBinding ["enter"] false;
     Prev := key.mkBinding ["shift+tab"] false |}.

Definition plain : lipgloss.Style := lipgloss.mkStyle (fun s => s).

Definition plain_theme : Theme :=
  {| Focused := FieldStyles.mk plain plain; Blurred := FieldStyles.mk plain plain |}.

Definition empty_world : @World string := mkWorld ∅ [] [].

(** [NewSelect("Warrior", "Mage", "Rogue")] in the empty world, with key map
    and theme installed, cursor on option [cursor], validator [f]. *)
Definition class_field (cursor : Z) (f : string -> goerror) : @Select string :=
  mkSelect (Some 1%positive) "" ""
    [Option.mk "Warrior" "Warrior"; Option.mk "Mage" "Mage"; Option.mk "Rogue" "Rogue"]
    (Some f) None cursor false 0 false (Some plain_theme) (Some select_keys).

(** The world [NewSelect] leaves: one cell, holding the empty string. *)
Definition class_world : @World string := mkWorld {[ 1%positive := "" ]} [] [].

Definition no_mage : string -> goerror :=
  fun v => if bool_decide (v = "Mage") then Some "mages are not hired" else None.

(** The field the rejected-mage scenario leaves: cursor on "Mage", the
    validator's error recorded. *)
Definition mage_refused : @Select string :=
  set_err (class_field 1 no_mage) (Some "mages are not hired").

(** Styles for the rest of a set: a star for the error, an arrow for the
    selector. *)
Definition plain_more : FieldStyles.t -> ViewStyles.t :=
  fun _ => ViewStyles.mk "*" plain "> " plain plain.

(** ** Facts about Go's [int] *)

Module GoIntFacts.
Import GoInt.

Lemma wrap_small z : in_range z -> wrap z = z.
Proof.
  unfold in_range, wrap, min_int, max_int. intros Hz.
  rewrite Z.mod_small; lia.
Qed.

Lemma wrap_in_range z : in_range (wrap z).
Proof.
  unfold in_range, wrap, min_int, max_int.
  pose proof (Z.mod_pos_bound (z + 2 ^ 63) (2 ^ 64)). lia.
Qed.

End GoIntFacts.


Section FieldFacts.
Context {T : Type} `{GoType T}.

(** ** Facts about the primitives *)

Implicit Types (s : @Select T) (w : @World T) (km : SelectKeyMap) (k : string).

Lemma index_lookup {A} (xs : list A) (i : Z) (x : A) w :
  0 <= i -> xs !! Z.to_nat i = Some x -> index xs i w = Ok x w.
Proof.
  intros Hi Hx. unfold index.
  pose proof (lookup_lt_Some _ _ _ Hx) as Hlt.
  assert (Hb : (0 <=? i) && (i <? GoInt.len xs) = true).
  { unfold GoInt.len. apply andb_true_intro. split; [apply Z.leb_le | apply Z.ltb_lt]; lia. }
  rewrite Hb, Hx. reflexivity.
Qed.

Lemma index_empty {A} (i : Z) w :
  index (@nil A) i w = Panicked (IndexOutOfRange i 0).
Proof.
  unfold index, GoInt.len. simpl. change (Z.of_nat 0) with 0.
  destruct ((0 <=? i) && (i <? 0)); reflexivity.
Qed.

Lemma logged_logged w (xs ys : list T) :
  logged (logged w xs) ys = logged w (xs ++ ys).
Proof. unfold logged. simpl. by rewrite <- app_assoc. Qed.

(** How a key press that resolves to a given action gets through the four
    [case] tests of [Update]. *)
Lemma action_MoveUp km k :
  action km k = MoveUp -> key.Matches k (Up km) = true.
Proof.
  unfold action. repeat (case_match; try discriminate); auto.
Qed.

Lemma action_MoveDown km k :
  action km k = MoveDown ->
  key.Matches k (Up km) = false /\ key.Matches k (Down km) = true.
Proof.
  unfold action. repeat (case_match; try discriminate); auto.
Qed.

Lemma action_Retreat km k :
  action km k = Retreat ->
  key.Matches k (Up km) = false /\ key.Matches k (Down km) = false /\
  key.Matches k (Prev km) = true.
Proof.
  unfold action. repeat (case_match; try discriminate); auto.
Qed.

Lemma action_Advance km k :
  action km k = Advance ->
  key.Matches k (Up km) = false /\ key.Matches k (Down km) = false /\
  key.Matches k (Prev km) = false /\ key.Matches k (Next km) = true.
Proof.
  unfold action. repeat (case_match; try discriminate); auto.
Qed.

Lemma action_Unbound km k :
  action km k = Unbound ->
  key.Matches k (Up km) = false /\ key.Matches k (Down km) = false /\
  key.Matches k (Prev km) = false /\ key.Matches k (Next km) = false.
Proof.
  unfold action. repeat (case_match; try discriminate); auto.
Qed.

(** [Update] on a key press, one equation per action. *)
Lemma Update_MoveUp s km k w :
  keymap s = Some km -> action km k = MoveUp ->
  Update s (KeyMsg k) w =
    Ok (set_selected (set_err s None) (Z.max (GoInt.sub (selected s) 1) 0), None) w.
Proof.
  intros Hkm Ha. apply action_MoveUp in Ha.
  unfold Update, bind, deref. simpl. rewrite Hkm, Ha. reflexivity.
Qed.

Lemma Update_MoveDown s km k w :
  keymap s = Some km -> action km k = MoveDown ->
  Update s (KeyMsg k) w =
    Ok (set_selected (set_err s None)
          (Z.min (GoInt.add (selected s) 1) (GoInt.sub (GoInt.len (options s)) 1)),
        None) w.
Proof.
  intros Hkm Ha. apply action_MoveDown in Ha as [Hu Hd].
  unfold Update, bind, deref. simpl. rewrite Hkm, Hu, Hd. reflexivity.
Qed.

Lemma Update_Retreat s km k w :
  keymap s = Some km -> action km k = Retreat ->
  Update s (KeyMsg k) w = Ok (set_err s None, Some prevField) w.
Proof.
  intros Hkm Ha. apply action_Retreat in Ha as (Hu & Hd & Hp).
  unfold Update, bind, deref. simpl. rewrite Hkm, Hu, Hd, Hp. reflexivity.
Qed.

Lemma Update_Advance s km k w :
  keymap s = Some km -> action km k = Advance ->
  Update s (KeyMsg k) w =
    bind (index (options s) (selected s)) (fun option =>
    bind (call (validate s) (Option.Value option)) (fun e =>
      match e with
      | Some _ => ret (set_err s e, None)
      | None =>
          bind (store (value s) (Option.Value option)) (fun _ =>
          ret (set_err s None, Some nextField))
      end)) w.
Proof.
  intros Hkm Ha. apply action_Advance in Ha as (Hu & Hd & Hp & Hn).
  unfold Update, bind, deref. simpl. rewrite Hkm, Hu, Hd, Hp, Hn.
  destruct (index (options s) (selected s) w) as [o w1 | |]; try reflexivity.
  destruct (call (validate s) (Option.Value o) w1) as [[e|] w2 | |]; reflexivity.
Qed.

Lemma Update_Unbound s km k w :
  keymap s = Some km -> action km k = Unbound ->
  Update s (KeyMsg k) w = Ok (set_err s None, None) w.
Proof.
  intros Hkm Ha. apply action_Unbound in Ha as (Hu & Hd & Hp & Hn).
  unfold Update, bind, deref. simpl. rewrite Hkm, Hu, Hd, Hp, Hn. reflexivity.
Qed.

(** With no options at all, advance indexes an empty slice and move-down
    leaves the cursor below zero. *)
Lemma Update_Advance_no_options s km k w :
  keymap s = Some km -> action km k = Advance -> options s = [] ->
  Update s (KeyMsg k) w = Panicked (IndexOutOfRange (selected s) 0).
Proof.
  intros Hkm Ha Ho. rewrite (Update_Advance s km k w Hkm Ha).
  unfold bind. rewrite Ho, index_empty. reflexivity.
Qed.

Lemma Update_MoveDown_no_options s km k w :
  keymap s = Some km -> action km k = MoveDown ->
  options s = [] -> selected s = 0 ->
  Update s (KeyMsg k) w = Ok (set_selected (set_err s None) (-1), None) w.
Proof.
  intros Hkm Ha Ho Hc. rewrite (Update_MoveDown s km k w Hkm Ha).
  rewrite Ho, Hc. reflexivity.
Qed.

(** An advance whose choice the validator accepts. *)
Lemma Update_Advance_accepted s km k w (l : loc) (f : T -> goerror) (o : Option.t T) :
  keymap s = Some km -> action km k = Advance ->
  value s = Some l -> validate s = Some f ->
  0 <= selected s -> options s !! Z.to_nat (selected s) = Some o ->
  f (Option.Value o) = None ->
  Update s (KeyMsg k) w =
    Ok (set_err s None, Some nextField)
       (written (logged w [Option.Value o]) l (Option.Value o)).
Proof.
  intros Hkm Ha Hv Hf H0 Ho Hacc.
  rewrite (Update_Advance s km k w Hkm Ha).
  unfold bind. rewrite (index_lookup _ _ o w H0 Ho).
  unfold call. rewrite Hf, Hacc. unfold store. rewrite Hv. reflexivity.
Qed.

(** An advance whose choice the validator rejects. *)
Lemma Update_Advance_rejected s km k w (f : T -> goerror) (o : Option.t T) (e : string) :
  keymap s = Some km -> action km k = Advance ->
  validate s = Some f ->
  0 <= selected s -> options s !! Z.to_nat (selected s) = Some o ->
  f (Option.Value o) = Some e ->
  Update s (KeyMsg k) w =
    Ok (set_err s (Some e), None) (logged w [Option.Value o]).
Proof.
  intros Hkm Ha Hf H0 Ho Hrej.
  rewrite (Update_Advance s km k w Hkm Ha).
  unfold bind. rewrite (index_lookup _ _ o w H0 Ho).
  unfold call. rewrite Hf, Hrej. reflexivity.
Qed.

(** ** Sequences of calls *)

Lemma drive_step s (c : Call) (calls : list Call) w
      s1 (c1 : option Cmd) w1 s2 (c2 : list Cmd) w2 :
  dispatch s c w = Ok (s1, c1) w1 ->
  drive s1 calls w1 = Ok (s2, c2) w2 ->
  drive s (c :: calls) w = Ok (s2, option_list c1 ++ c2) w2.
Proof.
  intros Hd Hr. simpl. unfold bind. rewrite Hd. simpl. rewrite Hr. reflexivity.
Qed.

Lemma Updates_step s (msg : Msg) (msgs : list Msg) w
      s1 (c1 : option Cmd) w1 s2 (c2 : list Cmd) w2 :
  Update s msg w = Ok (s1, c1) w1 ->
  Updates s1 msgs w1 = Ok (s2, c2) w2 ->
  Updates s (msg :: msgs) w = Ok (s2, option_list c1 ++ c2) w2.
Proof.
  intros Hu Hr. unfold Updates in *. simpl map.
  by apply (drive_step s (CallUpdate msg) _ w s1 c1 w1).
Qed.

Lemma written_logged_again w (l : loc) (v : T) (vs : list T) :
  written (logged (written (logged w [v]) l v) vs) l v
  = written (logged w (v :: vs)) l v.
Proof.
  unfold written, logged. simpl.
  rewrite insert_insert_eq, <- app_assoc. reflexivity.
Qed.

Lemma clamp_move_in_range km (n c : Z) (msg : Msg) :
  0 <= c < n -> 0 <= clamp_move km n c msg < n.
Proof.
  intros Hc. unfold clamp_move.
  destruct msg as [k|]; [destruct (action km k) |]; lia.
Qed.

Lemma Update_move s km (msg : Msg) w :
  keymap s = Some km -> is_move km msg ->
  0 <= selected s < GoInt.len (options s) ->
  GoInt.len (options s) <= GoInt.max_int ->
  Update s msg w =
    Ok (set_selected (set_err s None)
          (clamp_move km (GoInt.len (options s)) (selected s) msg), None) w.
Proof.
  intros Hkm (k & -> & [Ha | Ha]) Hc Hn; unfold GoInt.max_int in Hn.
  - rewrite (Update_MoveUp s km k w Hkm Ha). unfold clamp_move. rewrite Ha.
    unfold GoInt.sub. rewrite GoIntFacts.wrap_small; [reflexivity |].
    unfold GoInt.in_range, GoInt.min_int, GoInt.max_int. lia.
  - rewrite (Update_MoveDown s km k w Hkm Ha). unfold clamp_move. rewrite Ha.
    unfold GoInt.sub, GoInt.add. rewrite !GoIntFacts.wrap_small; [reflexivity | |];
      unfold GoInt.in_range, GoInt.min_int, GoInt.max_int; lia.
Qed.

Lemma dispatch_default km (l : loc) s (c : Call) w :
  default_inv km l s -> is_Some (heap w !! l) ->
  exists s' cmd w',
    dispatch s c w = Ok (s', cmd) w' /\ default_inv km l s' /\ is_Some (heap w' !! l).
Proof.
  intros (Hkm & Hf & Hv & He & Hc & Hn) [v0 Hl]. unfold default_inv.
  destruct c as [| | [k | what]]; unfold dispatch.
  - exists (set_focused s true), None, w. simpl. eauto 10.
  - exists (set_err (set_focused s false) None), None, (logged w [v0]).
    split; [| simpl; eauto 10].
    unfold Blur, bind, load, call. simpl. rewrite Hv, Hl, Hf. reflexivity.
  - pose proof (clamp_move_in_range km _ _ (KeyMsg k) Hc) as Hc'.
    destruct (action km k) eqn:Ha.
    + eexists _, _, w. split; [apply Update_move; eauto |].
      { exists k. auto. }
      simpl. eauto 10.
    + eexists _, _, w. split; [apply Update_move; eauto |].
      { exists k. auto. }
      simpl. eauto 10.
    + eexists _, _, w. split; [by eapply Update_Retreat |]. simpl. eauto 10.
    + destruct (lookup_lt_is_Some_2 (options s) (Z.to_nat (selected s))) as [o Ho].
      { unfold GoInt.len in Hc. lia. }
      eexists _, _, _. split.
      { eapply Update_Advance_accepted; eauto. lia. }
      split; [simpl; eauto 10 |].
      unfold written. simpl. rewrite lookup_insert_eq. eauto.
    + eexists _, _, w. split; [by eapply Update_Unbound |]. simpl. eauto 10.
  - exists s, None, w. eauto 10.
Qed.

Lemma drive_default km (l : loc) (calls : list Call) s w :
  default_inv km l s -> is_Some (heap w !! l) ->
  exists s' cmds w',
    drive s calls w = Ok (s', cmds) w' /\ default_inv km l s' /\ is_Some (heap w' !! l).
Proof.
  revert s w. induction calls as [| c calls IH]; intros s w Hs Hw.
  - exists s, [], w. split; [reflexivity | by split].
  - destruct (dispatch_default km l s c w Hs Hw) as (s1 & c1 & w1 & Hd & Hs1 & Hw1).
    destruct (IH s1 w1 Hs1 Hw1) as (s2 & c2 & w2 & Hr & Hs2 & Hw2).
    exists s2, (option_list c1 ++ c2), w2. split; [| by split].
    by eapply drive_step.
Qed.

Lemma runAccessible_eq s (th : Theme) (entries : list Z) w :
  theme s = Some th ->
  runAccessible s entries w = promptLoop s entries (printed w [banner s th]).
Proof.
  intros Hth. unfold runAccessible, bind, deref. rewrite Hth. reflexivity.
Qed.

(** One turn of the prompt loop on an entry [PromptInt] accepts. *)
Lemma promptLoop_choice s (c : Z) (rest : list Z) w (l : loc) (f : T -> goerror)
      (o : Option.t T) :
  value s = Some l -> validate s = Some f ->
  1 <= c <= GoInt.len (options s) ->
  GoInt.len (options s) <= GoInt.max_int ->
  options s !! Z.to_nat (c - 1) = Some o ->
  promptLoop s (c :: rest) w =
    match f (Option.Value o) with
    | Some e =>
        promptLoop s rest (printed (logged w [Option.Value o]) [e +:+ newline])
    | None =>
        Ok None
           (written
              (printed (logged w [Option.Value o])
                 [("Chose: " +:+ Option.Key o +:+ newline) +:+ newline])
              l (Option.Value o))
    end.
Proof.
  intros Hv Hf Hc Hn Ho.
  assert (Hacc : PromptInt_accepts 1 (GoInt.len (options s)) c = true).
  { unfold PromptInt_accepts. apply andb_true_intro.
    split; apply Z.leb_le; lia. }
  assert (Hsub : GoInt.sub c 1 = c - 1).
  { unfold GoInt.sub. apply GoIntFacts.wrap_small.
    unfold GoInt.in_range, GoInt.min_int, GoInt.max_int in *. lia. }
  assert (H0 : 0 <= c - 1) by lia.
  cbn [promptLoop]. rewrite Hacc, Hsub.
  unfold bind at 1. rewrite (index_lookup _ _ o w H0 Ho).
  unfold bind at 1. unfold call. rewrite Hf.
  destruct (f (Option.Value o)) as [e |].
  - reflexivity.
  - unfold bind, Println, store. rewrite Hv. reflexivity.
Qed.

(** An entry [PromptInt] rejects is asked for again. *)
Lemma promptLoop_rejected_entry s (c : Z) (rest : list Z) w :
  PromptInt_accepts 1 (GoInt.len (options s)) c = false ->
  promptLoop s (c :: rest) w = promptLoop s rest w.
Proof. intros Hrej. cbn [promptLoop]. rewrite Hrej. reflexivity. Qed.

(** ** The claims *)

(** C1. On a field whose options hold an entry under the cursor that the
    validator accepts, an advance key clears the error, writes exactly that
    entry's value into the bound-value cell and emits one advance signal;
    any number of advance keys in a row each validate and write the same
    value again, one signal per key, and leave no error. *)
Theorem advance_accepted_writes_value_and_signals
    s km k w (l : loc) (f : T -> goerror) (o : Option.t T) (n : nat) :
  keymap s = Some km -> action km k = Advance ->
  value s = Some l -> validate s = Some f ->
  0 <= selected s -> options s !! Z.to_nat (selected s) = Some o ->
  f (Option.Value o) = None ->
  Update s (KeyMsg k) w =
    Ok (set_err s None, Some nextField)
       (written (logged w [Option.Value o]) l (Option.Value o))
  /\ Error (set_err s None) = None
  /\ heap (written (logged w [Option.Value o]) l (Option.Value o)) !! l
     = Some (Option.Value o)
  /\ Updates s (replicate (S n) (KeyMsg k)) w =
       Ok (set_err s None, replicate (S n) nextField)
          (written (logged w (replicate (S n) (Option.Value o))) l (Option.Value o)).
Proof.
  intros Hkm Ha Hv Hf H0 Ho Hacc.
  split; [by eapply Update_Advance_accepted |].
  split; [reflexivity |].
  split; [unfold written; simpl; apply lookup_insert_eq |].
  revert s w Hkm Hv Hf H0 Ho.
  induction n as [| n IH]; intros s w Hkm Hv Hf H0 Ho.
  - simpl replicate.
    change [nextField] with (option_list (Some nextField) ++ []).
    eapply Updates_step; [by eapply Update_Advance_accepted | reflexivity].
  - change (replicate (S (S n)) (KeyMsg k))
      with (KeyMsg k :: replicate (S n) (KeyMsg k)).
    change (replicate (S (S n)) nextField)
      with (option_list (Some nextField) ++ replicate (S n) nextField).
    change (replicate (S (S n)) (Option.Value o))
      with (Option.Value o :: replicate (S n) (Option.Value o)).
    eapply Updates_step; [by eapply Update_Advance_accepted |].
    rewrite (IH (set_err s None)); try assumption.
    rewrite written_logged_again. reflexivity.
Qed.

(** C2. On a field whose validator rejects the entry under the cursor, any
    number of advance keys in a row leave the validator's error in
    [lastError], the heap (so the bound-value cell) as it was, the cursor and
    the focus flag as they were, and emit no signal; each key calls the
    validator once. *)
Theorem advance_rejected_keeps_value_and_stays
    s km k w (f : T -> goerror) (o : Option.t T) (e : string) (n : nat) :
  keymap s = Some km -> action km k = Advance ->
  validate s = Some f ->
  0 <= selected s -> options s !! Z.to_nat (selected s) = Some o ->
  f (Option.Value o) = Some e ->
  exists s' w',
    Updates s (replicate (S n) (KeyMsg k)) w = Ok (s', []) w'
    /\ s' = set_err s (Some e)
    /\ Error s' = Some e
    /\ heap w' = heap w
    /\ selected s' = selected s
    /\ focused s' = focused s
    /\ validated w' = validated w ++ replicate (S n) (Option.Value o).
Proof.
  intros Hkm Ha Hf H0 Ho Hrej.
  exists (set_err s (Some e)), (logged w (replicate (S n) (Option.Value o))).
  split; [| by repeat split].
  revert s w Hkm Hf H0 Ho.
  induction n as [| n IH]; intros s w Hkm Hf H0 Ho.
  - simpl replicate.
    change (@nil Cmd) with (option_list (@None Cmd) ++ []).
    eapply Updates_step; [by eapply Update_Advance_rejected | reflexivity].
  - change (replicate (S (S n)) (KeyMsg k))
      with (KeyMsg k :: replicate (S n) (KeyMsg k)).
    change (@nil Cmd) with (option_list (@None Cmd) ++ []).
    eapply Updates_step; [by eapply Update_Advance_rejected |].
    rewrite (IH (set_err s (Some e))); try assumption.
    rewrite logged_logged. reflexivity.
Qed.

(** C3. On a field with at least one option and the cursor inside
    [0, len(options)-1], any finite sequence of move-up and move-down keys
    is handled without a panic, leaves the cursor inside that range, and
    each key moves it to [max(cursor-1, 0)] or [min(cursor+1, len-1)]: the
    cursor saturates at both ends and never wraps. *)
Theorem cursor_stays_in_range s km (msgs : list Msg) w :
  keymap s = Some km ->
  1 <= GoInt.len (options s) <= GoInt.max_int ->
  0 <= selected s < GoInt.len (options s) ->
  Forall (is_move km) msgs ->
  exists s',
    Updates s msgs w = Ok (s', []) w
    /\ selected s' = fold_left (clamp_move km (GoInt.len (options s))) msgs (selected s)
    /\ 0 <= selected s' < GoInt.len (options s)
    /\ options s' = options s.
Proof.
  intros Hkm Hn Hc Hmsgs. revert s Hkm Hn Hc.
  induction Hmsgs as [| msg msgs Hmsg _ IH]; intros s Hkm Hn Hc.
  - exists s. repeat split; try reflexivity; lia.
  - pose proof (Update_move s km msg w Hkm Hmsg Hc (proj2 Hn)) as Hstep.
    set (c1 := clamp_move km (GoInt.len (options s)) (selected s) msg) in *.
    assert (Hc1 : 0 <= c1 < GoInt.len (options s))
      by (by apply clamp_move_in_range).
    destruct (IH (set_selected (set_err s None) c1)) as (s' & Hrun & Hsel & Hin & Hopt);
      [assumption | assumption | assumption |].
    cbn [options selected set_selected set_err] in Hsel, Hin, Hopt.
    exists s'. split; [| cbn [fold_left]; repeat split; try assumption; lia].
    change (@nil Cmd) with (option_list (@None Cmd) ++ []).
    eapply Updates_step; eassumption.
Qed.

(** C4. [Blur] marks the field inactive and calls the validator exactly once,
    on the contents of the bound-value cell, whatever option the cursor is
    on; the answer is stored in [lastError] and is what [Error] returns
    afterwards, also across a later [Focus]. *)
Theorem blur_validates_bound_value s w (l : loc) (f : T -> goerror) (v : T) :
  value s = Some l -> heap w !! l = Some v -> validate s = Some f ->
  exists s',
    Blur s w = Ok (s', None) (logged w [v])
    /\ s' = set_err (set_focused s false) (f v)
    /\ focused s' = false
    /\ Error s' = f v
    /\ (forall w1, exists s'', Focus s' w1 = Ok (s'', None) w1 /\ Error s'' = f v).
Proof.
  intros Hv Hl Hf. exists (set_err (set_focused s false) (f v)).
  split.
  - unfold Blur, bind, load, call. simpl. rewrite Hv, Hl, Hf. reflexivity.
  - repeat split. intros w1. eexists. split; reflexivity.
Qed.

(** C6, as amended. A message that is no key press leaves the field as it
    is; a key press bound to none of the four actions leaves everything but
    [lastError] as it is and clears [lastError]; neither emits a signal nor
    touches the world. *)
Theorem unrelated_event_clears_only_error s (msg : Msg) w :
  unrelated s msg ->
  Update s msg w =
    Ok (match msg with KeyMsg _ => set_err s None | OtherMsg _ => s end, None) w.
Proof.
  destruct msg as [k | what]; simpl.
  - intros (km & Hkm & Ha). by eapply Update_Unbound.
  - reflexivity.
Qed.

(** C7. A retreat key emits the retreat signal at once: the world is left as
    it is (no validator call, no write to the bound-value cell) and so is
    the cursor. *)
Theorem retreat_signals_without_validation s km k w :
  keymap s = Some km -> action km k = Retreat ->
  exists s',
    Update s (KeyMsg k) w = Ok (s', Some prevField) w
    /\ selected s' = selected s
    /\ value s' = value s
    /\ focused s' = focused s.
Proof.
  intros Hkm Ha. exists (set_err s None).
  split; [by eapply Update_Retreat | by repeat split].
Qed.


(** C8. In the accessible path, for an accepted choice [c] in
    [1, len(options)]: when the validator rejects the value of option [c],
    the error is printed, the heap is as it was and the loop goes on with
    the next entry; when it accepts, "Chose: " and the option's key are
    printed, the value is written to the bound-value cell and [nil] is
    returned.  The result carries an error only: the path has no way to
    emit a navigation signal. *)
Theorem accessible_choice_validated
    s (th : Theme) (c : Z) (rest : list Z) w (l : loc) (f : T -> goerror)
    (o : Option.t T) :
  theme s = Some th -> value s = Some l -> validate s = Some f ->
  1 <= c <= GoInt.len (options s) ->
  GoInt.len (options s) <= GoInt.max_int ->
  options s !! Z.to_nat (c - 1) = Some o ->
  match f (Option.Value o) with
  | Some e =>
      exists w1,
        runAccessible s (c :: rest) w = promptLoop s rest w1
        /\ heap w1 = heap w
        /\ stdout w1 = stdout w ++ [banner s th; e +:+ newline]
        /\ validated w1 = validated w ++ [Option.Value o]
  | None =>
      exists w1,
        runAccessible s (c :: rest) w = Ok None w1
        /\ heap w1 = <[l := Option.Value o]> (heap w)
        /\ stdout w1 = stdout w ++
             [banner s th; ("Chose: " +:+ Option.Key o +:+ newline) +:+ newline]
        /\ validated w1 = validated w ++ [Option.Value o]
  end.
Proof.
  intros Hth Hv Hf Hc Hn Ho.
  rewrite (runAccessible_eq s th _ w Hth).
  rewrite (promptLoop_choice s c rest _ l f o Hv Hf Hc Hn Ho).
  destruct (f (Option.Value o)) as [e |]; eexists; (split; [reflexivity |]);
    unfold written, printed, logged; simpl; rewrite <- app_assoc; by repeat split.
Qed.

(** C9. [NewSelect] returns a field bound to a freshly allocated cell that
    holds the zero value, with a validator that accepts every value and no
    error recorded.  Such a field, once given a key map and at least one
    option, handles every sequence of focus, blur and update calls without
    ever recording an error. *)
Theorem new_field_defaults (opts : list T) w :
  exists s l,
    NewSelect opts w = Ok s (written w l zero_value)
    /\ heap w !! l = None
    /\ value s = Some l
    /\ validate s = Some always_valid
    /\ (forall v : T, always_valid v = None)
    /\ Error s = None
    /\ (forall (k : KeyMap) (calls : list Call) w1,
          opts <> [] -> GoInt.len opts <= GoInt.max_int ->
          is_Some (heap w1 !! l) ->
          exists s' cmds w2,
            drive (WithKeyMap s k) calls w1 = Ok (s', cmds) w2 /\ Error s' = None).
Proof.
  eexists _, (fresh (dom (heap w))).
  split; [reflexivity |].
  split; [apply not_elem_of_dom, is_fresh |].
  do 4 (split; [reflexivity |]).
  intros k calls w1 Hne Hn Hw1.
  destruct (drive_default (KeyMap_Select k) (fresh (dom (heap w))) calls
              (WithKeyMap
                 (mkSelect (Some (fresh (dom (heap w)))) "" ""
                    (map (fun option => Option.mk (Sprint option) option) opts)
                    (Some always_valid) None 0 false 0 false None None) k) w1)
    as (s' & cmds & w2 & Hr & Hs' & _); [| assumption |].
  - unfold default_inv, GoInt.len in *. simpl. rewrite length_map.
    destruct opts as [| o opts]; [done |]. simpl length in *.
    unfold GoInt.max_int in *.
    repeat split; try reflexivity; lia.
  - exists s', cmds, w2. split; [exact Hr |]. apply Hs'.
Qed.

(** C10. [Focus] sets the focus flag and nothing else: it returns no
    command, leaves the world as it is (no validator call, no write), and
    the cursor, the error, the options, the validator and the bound cell of
    the field are what they were. *)
Theorem focus_sets_only_the_flag s w :
  exists s',
    Focus s w = Ok (s', None) w
    /\ s' = set_focused s true
    /\ focused s' = true
    /\ selected s' = selected s
    /\ err s' = err s
    /\ options s' = options s
    /\ value s' = value s
    /\ validate s' = validate s.
Proof. exists (set_focused s true). by repeat split. Qed.

End FieldFacts.

(** ** Facts about strings *)

Lemma append_empty_r (x : string) : x +:+ "" = x.
Proof.
  induction x as [| a x IH]; [reflexivity |].
  change (String a x +:+ "") with (String a (x +:+ "")). by rewrite IH.
Qed.

Lemma append_assoc (x y z : string) : (x +:+ y) +:+ z = x +:+ (y +:+ z).
Proof.
  induction x as [| a x IH]; [reflexivity |].
  change ((String a x +:+ y) +:+ z) with (String a ((x +:+ y) +:+ z)).
  by rewrite IH.
Qed.

Lemma concat_empty_cons (x : string) (xs : list string) :
  String.concat "" (x :: xs) = x +:+ String.concat "" xs.
Proof.
  destruct xs as [| y xs]; [| reflexivity].
  change (x = x +:+ ""). symmetry. apply append_empty_r.
Qed.

(** ** More facts about the field *)

Section MoreFieldFacts.
Context {T : Type} `{GoType T}.

Implicit Types (s : @Select T) (w : @World T) (km : SelectKeyMap) (k : string).

Lemma index_Ok_inv {A} (xs : list A) (i : Z) (x : A) w w' :
  index xs i w = Ok x w' -> w' = w /\ 0 <= i /\ xs !! Z.to_nat i = Some x.
Proof.
  unfold index.
  destruct ((0 <=? i) && (i <? GoInt.len xs)) eqn:Hb; [| discriminate].
  destruct (xs !! Z.to_nat i) as [y |] eqn:Hx; [| discriminate].
  intros Heq. injection Heq as -> ->.
  apply andb_prop in Hb as [H0 _]. apply Z.leb_le in H0. auto.
Qed.

Lemma index_out_of_range {A} (xs : list A) (i : Z) w :
  i < 0 \/ GoInt.len xs <= i ->
  index xs i w = Panicked (IndexOutOfRange i (GoInt.len xs)).
Proof.
  intros Hi. unfold index.
  destruct ((0 <=? i) && (i <? GoInt.len xs)) eqn:Hb; [| reflexivity].
  apply andb_prop in Hb as [H0 H1].
  apply Z.leb_le in H0. apply Z.ltb_lt in H1. lia.
Qed.

Lemma Update_nil_keymap s k w :
  keymap s = None -> Update s (KeyMsg k) w = Panicked NilDereference.
Proof. intros Hkm. unfold Update, bind, deref. simpl. rewrite Hkm. reflexivity. Qed.

(** Every way [Update] can return. *)
Lemma Update_Ok_cases s (msg : Msg) w s' (c : option Cmd) w' :
  Update s msg w = Ok (s', c) w' ->
  match msg with
  | OtherMsg _ => s' = s /\ c = None /\ w' = w
  | KeyMsg k =>
      exists km, keymap s = Some km /\
      match action km k with
      | MoveUp =>
          s' = set_selected (set_err s None) (Z.max (GoInt.sub (selected s) 1) 0)
          /\ c = None /\ w' = w
      | MoveDown =>
          s' = set_selected (set_err s None)
                 (Z.min (GoInt.add (selected s) 1)
                        (GoInt.sub (GoInt.len (options s)) 1))
          /\ c = None /\ w' = w
      | Retreat => s' = set_err s None /\ c = Some prevField /\ w' = w
      | Unbound => s' = set_err s None /\ c = None /\ w' = w
      | Advance =>
          exists o f,
            0 <= selected s /\ options s !! Z.to_nat (selected s) = Some o /\
            validate s = Some f /\
            match f (Option.Value o) with
            | Some e =>
                s' = set_err s (Some e) /\ c = None /\
                w' = logged w [Option.Value o]
            | None =>
                exists l, value s = Some l /\ s' = set_err s None /\
                  c = Some nextField /\
                  w' = written (logged w [Option.Value o]) l (Option.Value o)
            end
      end
  end.
Proof.
  destruct msg as [k | what].
  - destruct (keymap s) as [km |] eqn:Hkm;
      [| rewrite (Update_nil_keymap s k w Hkm); discriminate].
    intros HU. exists km. split; [reflexivity |].
    destruct (action km k) eqn:Ha.
    + rewrite (Update_MoveUp s km k w Hkm Ha) in HU. by injection HU as <- <- <-.
    + rewrite (Update_MoveDown s km k w Hkm Ha) in HU. by injection HU as <- <- <-.
    + rewrite (Update_Retreat s km k w Hkm Ha) in HU. by injection HU as <- <- <-.
    + rewrite (Update_Advance s km k w Hkm Ha) in HU. unfold bind in HU.
      destruct (index (options s) (selected s) w) as [o w1 | |] eqn:Hi;
        try discriminate.
      apply index_Ok_inv in Hi as (-> & H0 & Ho).
      unfold call in HU. destruct (validate s) as [f |] eqn:Hf; [| discriminate].
      exists o, f. do 3 (split; [done |]).
      destruct (f (Option.Value o)) as [e |].
      * unfold ret in HU. by injection HU as <- <- <-.
      * unfold store in HU. destruct (value s) as [l |] eqn:Hv; [| discriminate].
        unfold ret in HU. exists l. by injection HU as <- <- <-.
    + rewrite (Update_Unbound s km k w Hkm Ha) in HU. by injection HU as <- <- <-.
  - intros HU. unfold Update, ret in HU. by injection HU as <- <- <-.
Qed.

(** ** Update: what it returns and what it leaves alone *)

(** X1. [Update] hands back the advance signal only from the advance case,
    after the validator accepted the option under the cursor and that
    option's value was stored in the bound cell; the field then records no
    error. *)
Theorem advance_signal_only_after_write s (msg : Msg) w s' w' :
  Update s msg w = Ok (s', Some nextField) w' ->
  exists km k l f o,
    msg = KeyMsg k /\ keymap s = Some km /\ action km k = Advance /\
    value s = Some l /\ validate s = Some f /\
    0 <= selected s /\ options s !! Z.to_nat (selected s) = Some o /\
    f (Option.Value o) = None /\
    heap w' !! l = Some (Option.Value o) /\
    Error s' = None.
Proof.
  intros HU. apply Update_Ok_cases in HU.
  destruct msg as [k | what]; [| by destruct HU as (_ & ? & _)].
  destruct HU as (km & Hkm & HU).
  destruct (action km k) eqn:Ha; try (by destruct HU as (_ & ? & _)).
  destruct HU as (o & f & H0 & Ho & Hf & HU).
  destruct (f (Option.Value o)) as [e |] eqn:Hfo; [by destruct HU as (_ & ? & _) |].
  destruct HU as (l & Hv & -> & _ & ->).
  exists km, k, l, f, o. repeat split; try done.
  unfold written. simpl. apply lookup_insert_eq.
Qed.

(** X2. Whatever the message, when [Update] returns, the field differs from
    the one it was called on in the cursor and the error at most; nothing
    was printed; at most one validator call was made; and every cell other
    than the one the field is bound to holds what it held. *)
Theorem Update_changes_cursor_and_error_only s (msg : Msg) w s' (c : option Cmd) w' :
  Update s msg w = Ok (s', c) w' ->
  set_selected (set_err s' (err s)) (selected s) = s
  /\ stdout w' = stdout w
  /\ (validated w' = validated w \/ exists v, validated w' = validated w ++ [v])
  /\ (forall l', value s <> Some l' -> heap w' !! l' = heap w !! l').
Proof.
  intros HU. apply Update_Ok_cases in HU.
  assert (Hs : set_selected (set_err s (err s)) (selected s) = s) by by destruct s.
  destruct msg as [k | what]; [| destruct HU as (-> & _ & ->); auto].
  destruct HU as (km & Hkm & HU).
  destruct (action km k) eqn:Ha;
    try (destruct HU as (-> & _ & ->); by repeat split; auto).
  destruct HU as (o & f & H0 & Ho & Hf & HU).
  destruct (f (Option.Value o)) as [e |] eqn:Hfo.
  - destruct HU as (-> & _ & ->). repeat split; eauto.
  - destruct HU as (l & Hv & -> & _ & ->). repeat split; eauto.
    intros l' Hl'. unfold written. simpl. apply lookup_insert_ne. congruence.
Qed.

(** X3. [Update] reads a key press only through the action it resolves to:
    two keys bound to the same action are handled alike, and a key that
    matches several bindings is handled as the first of up, down, previous
    and next that it matches. *)
Theorem Update_reads_the_action_only s km k (k' : string) w :
  keymap s = Some km -> action km k = action km k' ->
  Update s (KeyMsg k) w = Update s (KeyMsg k') w.
Proof.
  intros Hkm Hact. destruct (action km k) eqn:Ha; symmetry in Hact.
  - by rewrite (Update_MoveUp s km k w Hkm Ha), (Update_MoveUp s km k' w Hkm Hact).
  - by rewrite (Update_MoveDown s km k w Hkm Ha), (Update_MoveDown s km k' w Hkm Hact).
  - by rewrite (Update_Retreat s km k w Hkm Ha), (Update_Retreat s km k' w Hkm Hact).
  - by rewrite (Update_Advance s km k w Hkm Ha), (Update_Advance s km k' w Hkm Hact).
  - by rewrite (Update_Unbound s km k w Hkm Ha), (Update_Unbound s km k' w Hkm Hact).
Qed.

(** X4. From any cursor at all, also one outside the options, a move-up
    never leaves the cursor below zero and a move-down never leaves it past
    the last option. *)
Theorem moves_clamp_from_any_cursor s km k w :
  keymap s = Some km -> is_move km (KeyMsg k) ->
  GoInt.len (options s) <= GoInt.max_int ->
  exists s',
    Update s (KeyMsg k) w = Ok (s', None) w
    /\ options s' = options s
    /\ match action km k with
       | MoveUp => 0 <= selected s'
       | MoveDown => selected s' <= GoInt.len (options s) - 1
       | _ => False
       end.
Proof.
  intros Hkm (k0 & Hk & Hmv) Hn. injection Hk as <-.
  destruct Hmv as [Ha | Ha]; rewrite Ha.
  - eexists. split; [by apply (Update_MoveUp s km k w) |]. simpl. split; [done | lia].
  - eexists. split; [by apply (Update_MoveDown s km k w) |]. simpl. split; [done |].
    unfold GoInt.sub at 1. rewrite GoIntFacts.wrap_small; [lia |].
    unfold GoInt.in_range, GoInt.min_int, GoInt.max_int, GoInt.len in *. lia.
Qed.

(** X5. [Options] replaces the options and leaves the cursor where it was:
    when the cursor is not an index of the new options, the next advance
    key panics on the index. *)
Theorem Options_can_strand_the_cursor s km k w (opts : list (Option.t T)) :
  keymap s = Some km -> action km k = Advance ->
  selected s < 0 \/ GoInt.len opts <= selected s ->
  selected (Options s opts) = selected s
  /\ Update (Options s opts) (KeyMsg k) w
     = Panicked (IndexOutOfRange (selected s) (GoInt.len opts)).
Proof.
  intros Hkm Ha Hc. split; [reflexivity |].
  rewrite (Update_Advance (Options s opts) km k w Hkm Ha).
  unfold bind. simpl. by rewrite index_out_of_range.
Qed.

(** X6. [Value] rebinds the field: an accepted advance then writes the new
    cell, and every other cell, the one the field was bound to before
    among them, holds what it held. *)
Theorem Value_rebinds_the_cell s km k w (l' : loc) (f : T -> goerror) (o : Option.t T) :
  keymap s = Some km -> action km k = Advance -> validate s = Some f ->
  0 <= selected s -> options s !! Z.to_nat (selected s) = Some o ->
  f (Option.Value o) = None ->
  exists s' w',
    Update (Value s (Some l')) (KeyMsg k) w = Ok (s', Some nextField) w'
    /\ heap w' !! l' = Some (Option.Value o)
    /\ (forall l, l <> l' -> heap w' !! l = heap w !! l).
Proof.
  intros Hkm Ha Hf H0 Ho Hacc. eexists _, _. split.
  - by apply (Update_Advance_accepted (Value s (Some l')) km k w l' f o).
  - unfold written. simpl. split; [apply lookup_insert_eq |].
    intros l Hl. by apply lookup_insert_ne.
Qed.

(** ** Sequences of calls on a well-formed field *)

Lemma dispatch_well_formed km (l : loc) (f : T -> goerror) s (c : Call) w :
  well_formed km l f s -> is_Some (heap w !! l) ->
  exists s' cmd w',
    dispatch s c w = Ok (s', cmd) w'
    /\ well_formed km l f s' /\ options s' = options s
    /\ is_Some (heap w' !! l).
Proof.
  intros (Hkm & Hf & Hv & Hc & Hn) [v0 Hl]. unfold well_formed.
  destruct c as [| | [k | what]]; unfold dispatch.
  - exists (set_focused s true), None, w. simpl. eauto 10.
  - exists (set_err (set_focused s false) (f v0)), None, (logged w [v0]).
    split; [| simpl; eauto 10].
    unfold Blur, bind, load, call. simpl. rewrite Hv, Hl, Hf. reflexivity.
  - pose proof (clamp_move_in_range km _ _ (KeyMsg k) Hc) as Hc'.
    destruct (action km k) eqn:Ha.
    + eexists _, _, w. split; [apply Update_move; eauto |].
      { exists k. auto. }
      simpl. eauto 10.
    + eexists _, _, w. split; [apply Update_move; eauto |].
      { exists k. auto. }
      simpl. eauto 10.
    + eexists _, _, w. split; [by eapply Update_Retreat |]. simpl. eauto 10.
    + destruct (lookup_lt_is_Some_2 (options s) (Z.to_nat (selected s))) as [o Ho].
      { unfold GoInt.len in Hc. lia. }
      destruct (f (Option.Value o)) as [e |] eqn:Hfo.
      * eexists _, _, _. split.
        { eapply Update_Advance_rejected; eauto. lia. }
        simpl. eauto 10.
      * eexists _, _, _. split.
        { eapply Update_Advance_accepted; eauto. lia. }
        split; [simpl; eauto 10 |]. split; [reflexivity |].
        unfold written. simpl. rewrite lookup_insert_eq. eauto.
    + eexists _, _, w. split; [by eapply Update_Unbound |]. simpl. eauto 10.
  - exists s, None, w. eauto 10.
Qed.

(** X7. A field with key map, validator and bound cell in place and the
    cursor on an option takes every sequence of focus, blur and update
    calls without a panic, whatever the validator answers, and is again
    such a field afterwards, with the options it had. *)
Theorem well_formed_field_never_panics km (l : loc) (f : T -> goerror)
    (calls : list Call) s w :
  well_formed km l f s -> is_Some (heap w !! l) ->
  exists s' cmds w',
    drive s calls w = Ok (s', cmds) w'
    /\ well_formed km l f s' /\ options s' = options s
    /\ is_Some (heap w' !! l).
Proof.
  revert s w. induction calls as [| c calls IH]; intros s w Hs Hw.
  - exists s, [], w. split; [reflexivity |].
    split; [exact Hs |]. split; [reflexivity | exact Hw].
  - destruct (dispatch_well_formed km l f s c w Hs Hw)
      as (s1 & c1 & w1 & Hd & Hs1 & Ho1 & Hw1).
    destruct (IH s1 w1 Hs1 Hw1) as (s2 & c2 & w2 & Hr & Hs2 & Ho2 & Hw2).
    exists s2, (option_list c1 ++ c2), w2.
    split; [by eapply drive_step |].
    split; [exact Hs2 |]. split; [congruence | exact Hw2].
Qed.

(** X8. What a container does on an advance signal cannot fail: after an
    accepted advance, [Blur] validates the value that was just written, so
    it records no error; the validator has then seen that value twice. *)
Theorem advance_then_blur_records_no_error
    s km k w (l : loc) (f : T -> goerror) (o : Option.t T) :
  keymap s = Some km -> action km k = Advance ->
  value s = Some l -> validate s = Some f ->
  0 <= selected s -> options s !! Z.to_nat (selected s) = Some o ->
  f (Option.Value o) = None ->
  exists s' w',
    drive s [CallUpdate (KeyMsg k); CallBlur] w = Ok (s', [nextField]) w'
    /\ Error s' = None
    /\ focused s' = false
    /\ selected s' = selected s
    /\ heap w' !! l = Some (Option.Value o)
    /\ validated w' = validated w ++ [Option.Value o; Option.Value o].
Proof.
  intros Hkm Ha Hv Hf H0 Ho Hacc.
  exists (set_err (set_focused (set_err s None) false) None),
         (logged (written (logged w [Option.Value o]) l (Option.Value o))
                 [Option.Value o]).
  split.
  - change [nextField] with (option_list (Some nextField) ++ option_list None ++ []).
    eapply drive_step;
      [by apply (Update_Advance_accepted s km k w l f o) |].
    eapply drive_step; [| reflexivity].
    unfold dispatch, Blur, bind, load, call. simpl.
    rewrite Hv, lookup_insert_eq, Hf, Hacc. reflexivity.
  - repeat split.
    + unfold logged, written. simpl. apply lookup_insert_eq.
    + unfold logged, written. simpl. by rewrite <- app_assoc.
Qed.

(** ** Construction *)

(** Moving down [i] times from the cursor, then advancing. *)
Lemma Updates_down_then_advance km (kd ka : string) (l : loc) (f : T -> goerror)
      (o : Option.t T) (i : nat) s w :
  action km kd = MoveDown -> action km ka = Advance ->
  keymap s = Some km -> value s = Some l -> validate s = Some f ->
  GoInt.len (options s) <= GoInt.max_int ->
  0 <= selected s ->
  options s !! (Z.to_nat (selected s) + i)%nat = Some o ->
  f (Option.Value o) = None ->
  Updates s (replicate i (KeyMsg kd) ++ [KeyMsg ka]) w =
    Ok (set_selected (set_err s None) (selected s + Z.of_nat i), [nextField])
       (written (logged w [Option.Value o]) l (Option.Value o)).
Proof.
  intros Hd Ha. revert s.
  induction i as [| i IH]; intros s Hkm Hv Hf Hn H0 Ho Hacc.
  - simpl app. rewrite Nat.add_0_r in Ho.
    change [nextField] with (option_list (Some nextField) ++ []).
    eapply Updates_step;
      [by apply (Update_Advance_accepted s km ka w l f o) |].
    replace (selected s + Z.of_nat 0) with (selected s) by lia.
    by destruct s.
  - change (replicate (S i) (KeyMsg kd) ++ [KeyMsg ka])
      with (KeyMsg kd :: (replicate i (KeyMsg kd) ++ [KeyMsg ka])).
    change [nextField] with (option_list (@None Cmd) ++ [nextField]).
    pose proof (lookup_lt_Some _ _ _ Ho) as Hlt.
    assert (Hsel : 0 <= selected s < GoInt.len (options s))
      by (unfold GoInt.len; lia).
    eapply Updates_step.
    + apply (Update_move s km (KeyMsg kd) w Hkm); [| done | done].
      exists kd. auto.
    + unfold clamp_move. rewrite Hd.
      replace (Z.min (selected s + 1) (GoInt.len (options s) - 1))
        with (selected s + 1) by (unfold GoInt.len in *; lia).
      rewrite IH; simpl; try done.
      * do 2 f_equal. f_equal. lia.
      * lia.
      * rewrite <- Ho. f_equal. lia.
Qed.

(** X9. Round trip of a construction: the field [NewSelect] returns for
    [opts], once it has a key map, stores the [i]-th of [opts] in its cell
    when the user moves down [i] times and advances, and emits one advance
    signal. *)
Theorem NewSelect_then_choose_nth (opts : list T) (i : nat) (v : T)
    km (kd ka : string) w :
  action km kd = MoveDown -> action km ka = Advance ->
  opts !! i = Some v -> GoInt.len opts <= GoInt.max_int ->
  exists s l w0 s' w',
    NewSelect opts w = Ok s w0
    /\ value s = Some l
    /\ Updates (WithKeyMap s (mkKeyMap km))
               (replicate i (KeyMsg kd) ++ [KeyMsg ka]) w0
       = Ok (s', [nextField]) w'
    /\ heap w' !! l = Some v
    /\ selected s' = Z.of_nat i
    /\ Error s' = None.
Proof.
  intros Hd Ha Hv Hn.
  eexists _, (fresh (dom (heap w))), _, _, _.
  split; [reflexivity |]. split; [reflexivity |]. split.
  - apply (Updates_down_then_advance km kd ka (fresh (dom (heap w))) always_valid
             (Option.mk (Sprint v) v) i); try done.
    + simpl. unfold GoInt.len in *. by rewrite length_map.
    + simpl. rewrite list_lookup_fmap, Hv. reflexivity.
  - simpl. repeat split. apply lookup_insert_eq.
Qed.

(** X10. Two constructions never share a cell: the second field's cell is
    not the first one's, the first one's still holds the zero value, and
    every cell that existed before holds what it held. *)
Theorem NewSelect_cells_are_distinct (a b : list T) w :
  exists s1 w1 s2 w2 l1 l2,
    NewSelect a w = Ok s1 w1 /\ NewSelect b w1 = Ok s2 w2
    /\ value s1 = Some l1 /\ value s2 = Some l2
    /\ l1 <> l2
    /\ heap w2 !! l1 = Some zero_value
    /\ heap w2 !! l2 = Some zero_value
    /\ (forall l, is_Some (heap w !! l) -> heap w2 !! l = heap w !! l).
Proof.
  set (l1 := fresh (dom (heap w))).
  set (w1 := written w l1 zero_value).
  set (l2 := fresh (dom (heap w1))).
  assert (H1 : l1 ∉ dom (heap w)) by apply is_fresh.
  assert (H2 : l2 ∉ dom (heap w1)) by apply is_fresh.
  assert (Hne : l1 <> l2).
  { intros Heq. apply H2. rewrite <- Heq. unfold w1, written. simpl.
    rewrite dom_insert_L. set_solver. }
  eexists _, w1, _, (written w1 l2 zero_value), l1, l2.
  split; [reflexivity |]. split; [reflexivity |].
  split; [reflexivity |]. split; [reflexivity |]. split; [exact Hne |].
  unfold w1, written. simpl. split; [| split].
  - rewrite lookup_insert_ne by done. apply lookup_insert_eq.
  - apply lookup_insert_eq.
  - intros l Hl. apply elem_of_dom in Hl.
    rewrite !lookup_insert_ne; [done | |]; intros <-; [done |].
    apply H2. unfold w1, written. simpl. rewrite dom_insert_L. set_solver.
Qed.

(** ** The accessible path *)

Lemma promptLoop_settles s (l : loc) (f : T -> goerror) (entries : list Z) w :
  value s = Some l -> validate s = Some f ->
  GoInt.len (options s) <= GoInt.max_int ->
  match first_accepted f (options s) entries with
  | Some o =>
      exists w', promptLoop s entries w = Ok None w'
                 /\ heap w' = <[l := Option.Value o]> (heap w)
  | None =>
      exists w', promptLoop s entries w = AwaitingInput w' /\ heap w' = heap w
  end.
Proof.
  intros Hv Hf Hn. revert w.
  induction entries as [| c entries IH]; intros w.
  - simpl. eauto.
  - cbn [first_accepted].
    destruct (PromptInt_accepts 1 (GoInt.len (options s)) c) eqn:Hacc.
    + assert (Hc : 1 <= c <= GoInt.len (options s)).
      { unfold PromptInt_accepts in Hacc. apply andb_prop in Hacc as [H1 H2].
        apply Z.leb_le in H1. apply Z.leb_le in H2. lia. }
      destruct (lookup_lt_is_Some_2 (options s) (Z.to_nat (c - 1))) as [o Ho].
      { unfold GoInt.len in Hc. lia. }
      rewrite Ho, (promptLoop_choice s c entries w l f o Hv Hf Hc Hn Ho).
      destruct (f (Option.Value o)) as [e |].
      * specialize (IH (printed (logged w [Option.Value o]) [e +:+ newline])).
        destruct (first_accepted f (options s) entries); exact IH.
      * eexists. split; reflexivity.
    + rewrite (promptLoop_rejected_entry s c entries w Hacc). apply IH.
Qed.

(** X11. The accessible path never hands back an error and writes the
    bound cell at most once: it returns [nil] with the cell holding the
    value of the first entry that is an option number the validator
    accepts, and when there is no such entry it is still waiting for input
    with every cell as it was. *)
Theorem runAccessible_settles_on_first_accepted
    s (th : Theme) (l : loc) (f : T -> goerror) (entries : list Z) w :
  theme s = Some th -> value s = Some l -> validate s = Some f ->
  GoInt.len (options s) <= GoInt.max_int ->
  match first_accepted f (options s) entries with
  | Some o =>
      exists w', runAccessible s entries w = Ok None w'
                 /\ heap w' = <[l := Option.Value o]> (heap w)
  | None =>
      exists w', runAccessible s entries w = AwaitingInput w' /\ heap w' = heap w
  end.
Proof.
  intros Hth Hv Hf Hn. rewrite (runAccessible_eq s th entries w Hth).
  exact (promptLoop_settles s l f entries (printed w [banner s th]) Hv Hf Hn).
Qed.

(** X12. Without options the accessible path accepts no entry at all:
    whatever is typed, it has printed the title and is waiting for input;
    nothing is validated and nothing is written. *)
Theorem runAccessible_without_options_waits s (th : Theme) (entries : list Z) w :
  theme s = Some th -> options s = [] ->
  runAccessible s entries w = AwaitingInput (printed w [banner s th]).
Proof.
  intros Hth Ho. rewrite (runAccessible_eq s th entries w Hth).
  generalize (printed w [banner s th]) as w0. intros w0.
  induction entries as [| c entries IH]; [reflexivity |].
  rewrite promptLoop_rejected_entry; [exact IH |].
  rewrite Ho. unfold PromptInt_accepts, GoInt.len. simpl.
  change (Z.of_nat 0) with 0.
  destruct (1 <=? c) eqn:H1; [| reflexivity].
  apply Z.leb_le in H1. simpl. apply Z.leb_gt. lia.
Qed.

Lemma listing_from (a : nat) (opts : list (Option.t T)) :
  Z.of_nat a + GoInt.len opts <= GoInt.max_int ->
  listing (Z.of_nat a) opts =
    String.concat ""
      (imap (fun j option =>
               pretty (Z.of_nat (a + j) + 1) +:+ ". " +:+ Option.Key option
                 +:+ newline)
            opts).
Proof.
  revert a. induction opts as [| o opts IH]; intros a Hn; [reflexivity |].
  assert (Hlen : GoInt.len (o :: opts) = GoInt.len opts + 1)
    by (unfold GoInt.len; simpl length; lia).
  assert (Hadd : GoInt.add (Z.of_nat a) 1 = Z.of_nat a + 1).
  { unfold GoInt.add. apply GoIntFacts.wrap_small.
    unfold GoInt.in_range, GoInt.min_int, GoInt.max_int, GoInt.len in *. lia. }
  cbn [listing]. rewrite imap_cons, concat_empty_cons, Hadd, Nat.add_0_r.
  replace (Z.of_nat a + 1) with (Z.of_nat (S a)) at 2 by lia.
  rewrite IH by lia.
  rewrite (imap_ext
             (fun j option =>
                pretty (Z.of_nat (S a + j) + 1) +:+ ". " +:+ Option.Key option
                  +:+ newline)
             ((fun j option =>
                 pretty (Z.of_nat (a + j) + 1) +:+ ". " +:+ Option.Key option
                   +:+ newline) ∘ S))
    by (intros j x _; simpl; do 2 f_equal; lia).
  by rewrite !append_assoc.
Qed.

(** X16. The listing of the accessible path has one line per option, in
    order, and the number printed on a line is the number that chooses it:
    the line of option number [c] reads [c], a dot and that option's key. *)
Theorem listing_numbers_match_choices (opts : list (Option.t T)) :
  GoInt.len opts <= GoInt.max_int ->
  listing 0 opts = String.concat "" (listing_lines opts)
  /\ length (listing_lines opts) = length opts
  /\ (forall (c : Z) (o : Option.t T),
        1 <= c -> opts !! Z.to_nat (c - 1) = Some o ->
        listing_lines opts !! Z.to_nat (c - 1)
        = Some (pretty c +:+ ". " +:+ Option.Key o +:+ newline)).
Proof.
  intros Hn. split; [exact (listing_from 0 opts Hn) |].
  split; [apply length_imap |].
  intros c o Hc Ho. unfold listing_lines.
  rewrite list_lookup_imap, Ho. simpl.
  by replace (Z.of_nat (Z.to_nat (c - 1)) + 1) with c by lia.
Qed.

(** X17. The two paths agree: typing option number [i+1] in the accessible
    path leaves in the bound cell what moving down [i] times from the top
    and advancing leaves there, the value of that option. *)
Theorem both_paths_write_the_same_value
    s km (th : Theme) (kd ka : string) (l : loc) (f : T -> goerror)
    (o : Option.t T) (i : nat) w :
  action km kd = MoveDown -> action km ka = Advance ->
  keymap s = Some km -> theme s = Some th ->
  value s = Some l -> validate s = Some f ->
  GoInt.len (options s) <= GoInt.max_int ->
  selected s = 0 -> options s !! i = Some o -> f (Option.Value o) = None ->
  exists s' w1 w2,
    Updates s (replicate i (KeyMsg kd) ++ [KeyMsg ka]) w = Ok (s', [nextField]) w1
    /\ runAccessible s [Z.of_nat i + 1] w = Ok None w2
    /\ heap w1 = heap w2
    /\ heap w1 !! l = Some (Option.Value o).
Proof.
  intros Hd Ha Hkm Hth Hv Hf Hn Hsel Ho Hacc.
  pose proof (lookup_lt_Some _ _ _ Ho) as Hlt.
  eexists _, _, _. split; [| split].
  - apply (Updates_down_then_advance km kd ka l f o i s w); try done.
    + lia.
    + by rewrite Hsel.
  - rewrite (runAccessible_eq s th _ w Hth).
    rewrite (promptLoop_choice s (Z.of_nat i + 1) [] _ l f o Hv Hf); try done.
    + rewrite Hacc. reflexivity.
    + unfold GoInt.len. lia.
    + rewrite <- Ho. f_equal. lia.
  - unfold written, printed, logged. simpl. split; [reflexivity |].
    apply lookup_insert_eq.
Qed.

(** X18. Two fields bound to the same cell see each other's writes: after
    one of them takes an accepted advance, [Blur] on the other validates
    the value the first one wrote. *)
Theorem shared_cell_is_seen_by_both_fields
    (s1 s2 : @Select T) km k w (l : loc) (f1 f2 : T -> goerror) (o : Option.t T) :
  keymap s1 = Some km -> action km k = Advance ->
  value s1 = Some l -> value s2 = Some l ->
  validate s1 = Some f1 -> validate s2 = Some f2 ->
  0 <= selected s1 -> options s1 !! Z.to_nat (selected s1) = Some o ->
  f1 (Option.Value o) = None ->
  exists s1' w1 s2' w2,
    Update s1 (KeyMsg k) w = Ok (s1', Some nextField) w1
    /\ Blur s2 w1 = Ok (s2', None) w2
    /\ Error s2' = f2 (Option.Value o)
    /\ validated w2 = validated w ++ [Option.Value o; Option.Value o].
Proof.
  intros Hkm Ha Hv1 Hv2 Hf1 Hf2 H0 Ho Hacc.
  eexists _, _, _, _. split; [| split].
  - by apply (Update_Advance_accepted s1 km k w l f1 o).
  - unfold Blur, bind, load, call, written. simpl.
    rewrite Hv2, lookup_insert_eq, Hf2. reflexivity.
  - simpl. split; [reflexivity | by rewrite <- app_assoc].
Qed.

End MoreFieldFacts.

(** ** Facts about rendering *)

Section RenderingFacts.
Context {T : Type} `{GoType T}.
Variable more_styles : FieldStyles.t -> ViewStyles.t.
Variable Width : string -> nat.

Implicit Types (s : @Select T) (w : @World T) (styles : FieldStyles.t).

(** The loop of [View] writes the rows with a newline between two of them
    and none after the last. *)
Lemma viewOptions_rows s styles (opts : list (Option.t T)) (a : nat) :
  Z.of_nat a + GoInt.len opts = GoInt.len (options s) ->
  GoInt.len (options s) <= GoInt.max_int ->
  viewOptions more_styles Width s styles
    (ViewStyles.SelectSelector (more_styles styles)) (Z.of_nat a) opts
  = String.concat newline
      (imap (fun j => view_row more_styles Width s styles (a + j)) opts).
Proof.
  intros Hlen Hn.
  assert (Hsub : GoInt.sub (GoInt.len (options s)) 1 = GoInt.len (options s) - 1).
  { unfold GoInt.sub. apply GoIntFacts.wrap_small.
    unfold GoInt.in_range, GoInt.min_int, GoInt.max_int, GoInt.len in *. lia. }
  revert a Hlen. induction opts as [| o opts IH]; intros a Hlen; [reflexivity |].
  cbn [viewOptions]. rewrite imap_cons, Hsub.
  replace (Z.of_nat a + 1) with (Z.of_nat (S a)) by lia.
  rewrite IH by (unfold GoInt.len in *; simpl length in Hlen; lia).
  rewrite (imap_ext (fun j => view_row more_styles Width s styles (S a + j))
                    ((fun j => view_row more_styles Width s styles (a + j)) ∘ S))
    by (intros j x _; simpl; f_equal; lia).
  unfold view_row at 1. rewrite Nat.add_0_r.
  destruct opts as [| o' opts].
  - assert (Hlast : (Z.of_nat a <? GoInt.len (options s) - 1) = false).
    { apply Z.ltb_ge. unfold GoInt.len in *. simpl length in Hlen. lia. }
    rewrite Hlast. simpl. by rewrite !append_empty_r.
  - assert (Hmore : (Z.of_nat a <? GoInt.len (options s) - 1) = true).
    { apply Z.ltb_lt. unfold GoInt.len in *. simpl length in Hlen. lia. }
    rewrite Hmore. reflexivity.
Qed.

Lemma View_eq s (th : Theme) w :
  theme s = Some th -> GoInt.len (options s) <= GoInt.max_int ->
  View more_styles Width s w =
    Ok (lipgloss.Render
          (FieldStyles.Base (if focused s then Focused th else Blurred th))
          (view_header more_styles s (if focused s then Focused th else Blurred th)
           +:+ String.concat newline
                 (imap (view_row more_styles Width s
                          (if focused s then Focused th else Blurred th))
                       (options s))))
       w.
Proof.
  intros Hth Hn. unfold View, bind, deref, ret. rewrite Hth.
  rewrite (viewOptions_rows s _ (options s) 0) by (simpl; lia || done).
  unfold view_header. by rewrite !append_assoc.
Qed.

(** X13. [View] leaves the world as it is and draws, under the title line
    and the description, one row per option in the order of the options,
    with a newline between two rows and none after the last; the row under
    the cursor, and no other, starts with the selector and is drawn in the
    selected style; the styles are the focused set when the field has the
    focus and the blurred set otherwise. *)
Theorem View_draws_one_row_per_option s (th : Theme) w :
  theme s = Some th -> GoInt.len (options s) <= GoInt.max_int ->
  exists styles,
    styles = (if focused s then Focused th else Blurred th)
    /\ View more_styles Width s w =
         Ok (lipgloss.Render (FieldStyles.Base styles)
               (view_header more_styles s styles
                +:+ String.concat newline
                      (imap (view_row more_styles Width s styles) (options s))))
            w
    /\ length (imap (view_row more_styles Width s styles) (options s))
       = length (options s).
Proof.
  intros Hth Hn. eexists. split; [reflexivity |].
  split; [by apply View_eq | apply length_imap].
Qed.

(** X14. With the cursor outside the options, [View] does not panic: it
    draws every option as a row that is not selected. *)
Theorem View_with_stranded_cursor_selects_no_row s (th : Theme) w :
  theme s = Some th -> GoInt.len (options s) <= GoInt.max_int ->
  selected s < 0 \/ GoInt.len (options s) <= selected s ->
  View more_styles Width s w =
    Ok (lipgloss.Render
          (FieldStyles.Base (if focused s then Focused th else Blurred th))
          (view_header more_styles s (if focused s then Focused th else Blurred th)
           +:+ String.concat newline
                 (map (view_plain_row more_styles Width
                         (if focused s then Focused th else Blurred th))
                      (options s))))
       w.
Proof.
  intros Hth Hn Hc. rewrite (View_eq s th w Hth Hn).
  rewrite <- (imap_const (view_plain_row more_styles Width _)).
  do 4 f_equal. apply imap_ext. intros j o Hj. unfold view_row, view_plain_row, const.
  apply lookup_lt_Some in Hj.
  assert (Hne : (selected s =? Z.of_nat j) = false).
  { apply Z.eqb_neq. unfold GoInt.len in Hc. lia. }
  by rewrite Hne.
Qed.

(** X15. A field straight from [NewSelect] has neither key map nor theme:
    until [WithKeyMap] and [WithTheme] are called, every key press sent to
    [Update], and every call of [View], [KeyBinds] or [runAccessible],
    panics on the nil pointer; other messages are ignored, and [Focus]
    works. *)
Theorem new_field_needs_key_map_and_theme (opts : list T) w
    (k : string) (what : string) (entries : list Z) :
  exists s w0,
    NewSelect opts w = Ok s w0
    /\ Update s (KeyMsg k) w0 = Panicked NilDereference
    /\ View more_styles Width s w0 = Panicked NilDereference
    /\ KeyBinds s w0 = Panicked NilDereference
    /\ runAccessible s entries w0 = Panicked NilDereference
    /\ Update s (OtherMsg what) w0 = Ok (s, None) w0
    /\ Focus s w0 = Ok (set_focused s true, None) w0.
Proof. eexists _, _. split; [reflexivity |]. by repeat split. Qed.

End RenderingFacts.

(** ** The example form, run *)

Example class_field_constructed :
  match NewSelect ["Warrior"; "Mage"; "Rogue"] empty_world with
  | Ok s w =>
      WithTheme (WithKeyMap s (mkKeyMap select_keys)) (Some plain_theme)
        = class_field 0 always_valid
      /\ w = class_world
  | _ => False
  end.
Proof. vm_compute. split; reflexivity. Qed.

(** Move down twice, then advance, with the constructor's validator. *)
Example scenario_rogue :
  Updates (class_field 0 always_valid)
          [KeyMsg "down"; KeyMsg "down"; KeyMsg "enter"] class_world
  = Ok (class_field 2 always_valid, [nextField])
       (mkWorld {[ 1%positive := "Rogue" ]} ["Rogue"] []).
Proof. vm_compute. reflexivity. Qed.

(** Move down, then advance, with a validator that turns mages away. *)
Example scenario_mage_rejected :
  Updates (class_field 0 no_mage) [KeyMsg "down"; KeyMsg "enter"] class_world
  = Ok (set_err (class_field 1 no_mage) (Some "mages are not hired"), [])
       (mkWorld {[ 1%positive := "" ]} ["Mage"] []).
Proof. vm_compute. reflexivity. Qed.

(** The same keys reach the field [mage_refused]. *)
Example mage_refused_reached :
  Updates (class_field 0 no_mage) [KeyMsg "down"; KeyMsg "enter"] class_world
  = Ok (mage_refused, []) (logged class_world ["Mage"]).
Proof. vm_compute. reflexivity. Qed.

(** The accessible path: 7 is no option number, "Mage" is refused, "Rogue"
    is taken. *)
Example scenario_accessible_retry :
  runAccessible (class_field 0 no_mage) [7; 2; 3]%Z class_world
  = Ok None
       (mkWorld {[ 1%positive := "Rogue" ]} ["Mage"; "Rogue"]
          [banner (class_field 0 no_mage) plain_theme;
           "mages are not hired" +:+ newline;
           "Chose: Rogue" +:+ newline +:+ newline]).
Proof. vm_compute. reflexivity. Qed.

(** The accessible path without options: no entry is ever accepted. *)
Example scenario_accessible_no_options :
  promptLoop (set_options (class_field 0 always_valid) []) [1; 0; 2]%Z class_world
  = AwaitingInput class_world.
Proof. vm_compute. reflexivity. Qed.

(** The accessible path: the user types 2. *)
Example scenario_accessible :
  runAccessible (class_field 0 always_valid) [2%Z] class_world
  = Ok None
       (mkWorld {[ 1%positive := "Mage" ]} ["Mage"]
          [newline +:+ "1. Warrior" +:+ newline +:+ "2. Mage" +:+ newline
             +:+ "3. Rogue" +:+ newline +:+ newline;
           "Chose: Mage" +:+ newline +:+ newline]).
Proof. vm_compute. reflexivity. Qed.

(** ** The claims on the example form *)

(** C1 on the class field: cursor on "Rogue", three advance keys. *)
Lemma advance_accepted_witness :
  Update (class_field 2 always_valid) (KeyMsg "enter") class_world =
    Ok (set_err (class_field 2 always_valid) None, Some nextField)
       (written (logged class_world ["Rogue"]) 1%positive "Rogue")
  /\ Error (set_err (class_field 2 always_valid) None) = None
  /\ heap (written (logged class_world ["Rogue"]) 1%positive "Rogue") !! 1%positive
     = Some "Rogue"
  /\ Updates (class_field 2 always_valid)
             [KeyMsg "enter"; KeyMsg "enter"; KeyMsg "enter"] class_world =
       Ok (set_err (class_field 2 always_valid) None,
           [nextField; nextField; nextField])
          (written (logged class_world ["Rogue"; "Rogue"; "Rogue"]) 1%positive "Rogue").
Proof.
  apply (advance_accepted_writes_value_and_signals
           (class_field 2 always_valid) select_keys "enter" class_world
           1%positive always_valid (Option.mk "Rogue" "Rogue") 2);
    [reflexivity | reflexivity | reflexivity | reflexivity | simpl; lia
    | reflexivity | reflexivity].
Defined.

(** C2 on the class field: cursor on "Mage", three advance keys refused. *)
Lemma advance_rejected_witness :
  exists s' w',
    Updates (class_field 1 no_mage)
            [KeyMsg "enter"; KeyMsg "enter"; KeyMsg "enter"] class_world
      = Ok (s', []) w'
    /\ s' = set_err (class_field 1 no_mage) (Some "mages are not hired")
    /\ Error s' = Some "mages are not hired"
    /\ heap w' = heap class_world
    /\ selected s' = selected (class_field 1 no_mage)
    /\ focused s' = focused (class_field 1 no_mage)
    /\ validated w' = validated class_world ++ ["Mage"; "Mage"; "Mage"].
Proof.
  apply (advance_rejected_keeps_value_and_stays
           (class_field 1 no_mage) select_keys "enter" class_world
           no_mage (Option.mk "Mage" "Mage") "mages are not hired" 2);
    [reflexivity | reflexivity | reflexivity | simpl; lia
    | reflexivity | reflexivity].
Defined.

(** C3 on the class field: three moves down from "Mage", one up. *)
Lemma cursor_stays_in_range_witness :
  exists s',
    Updates (class_field 1 always_valid)
            [KeyMsg "down"; KeyMsg "j"; KeyMsg "down"; KeyMsg "up"] class_world
      = Ok (s', []) class_world
    /\ selected s' =
         fold_left
           (clamp_move select_keys (GoInt.len (options (class_field 1 always_valid))))
           [KeyMsg "down"; KeyMsg "j"; KeyMsg "down"; KeyMsg "up"]
           (selected (class_field 1 always_valid))
    /\ 0 <= selected s' < GoInt.len (options (class_field 1 always_valid))
    /\ options s' = options (class_field 1 always_valid).
Proof.
  apply (cursor_stays_in_range (class_field 1 always_valid) select_keys).
  - reflexivity.
  - vm_compute. split; discriminate.
  - vm_compute. split; [discriminate | reflexivity].
  - repeat constructor; eexists; (split; [reflexivity |]);
      vm_compute; auto.
Defined.

(** C4 on the class field: cursor on "Rogue" while the cell holds "Mage". *)
Lemma blur_validates_bound_value_witness :
  exists s',
    Blur (class_field 2 no_mage) (mkWorld {[ 1%positive := "Mage" ]} [] [])
      = Ok (s', None) (logged (mkWorld {[ 1%positive := "Mage" ]} [] []) ["Mage"])
    /\ s' = set_err (set_focused (class_field 2 no_mage) false) (no_mage "Mage")
    /\ focused s' = false
    /\ Error s' = no_mage "Mage"
    /\ (forall w1, exists s'', Focus s' w1 = Ok (s'', None) w1 /\ Error s'' = no_mage "Mage").
Proof.
  apply (blur_validates_bound_value
           (class_field 2 no_mage) (mkWorld {[ 1%positive := "Mage" ]} [] [])
           1%positive no_mage "Mage");
    reflexivity.
Defined.

(** C5, on the code: [NewSelect()] with no options is not refused; on the
    field it returns, move-down takes the cursor to [-1] and advance indexes
    the empty slice. *)
Theorem zero_options_leave_the_range :
  exists s w,
    NewSelect (@nil string) empty_world = Ok s w
    /\ options s = []
    /\ selected s = 0
    /\ Update (WithKeyMap s (mkKeyMap select_keys)) (KeyMsg "down") w =
         Ok (set_selected (WithKeyMap s (mkKeyMap select_keys)) (-1), None) w
    /\ Update (WithKeyMap s (mkKeyMap select_keys)) (KeyMsg "enter") w =
         Panicked (IndexOutOfRange 0 0).
Proof.
  eexists _, _. split; [reflexivity |].
  repeat split; vm_compute; reflexivity.
Qed.

(** C6, as stated, fails: "x" is bound to no action, so the key press is an
    unrelated event, yet [Update] does not hand back the field unchanged; the
    error the field had recorded is gone. *)
Lemma unrelated_key_clears_error :
  unrelated mage_refused (KeyMsg "x")
  /\ Error mage_refused = Some "mages are not hired"
  /\ Update mage_refused (KeyMsg "x") class_world
       = Ok (set_err mage_refused None, None) class_world
  /\ Update mage_refused (KeyMsg "x") class_world
       <> Ok (mage_refused, None) class_world
  /\ ~ (forall (s : @Select string) (msg : Msg) (w : World),
          unrelated s msg -> Update s msg w = Ok (s, None) w).
Proof.
  assert (Hun : unrelated mage_refused (KeyMsg "x")).
  { exists select_keys. split; reflexivity. }
  assert (Hne : Update mage_refused (KeyMsg "x") class_world
                <> Ok (mage_refused, None) class_world).
  { vm_compute. discriminate. }
  repeat split; try assumption; try reflexivity.
  intros Hall. exact (Hne (Hall _ _ class_world Hun)).
Qed.

(** C6, as amended, on the key "x". *)
Lemma unrelated_event_witness :
  Update mage_refused (KeyMsg "x") class_world =
    Ok (set_err mage_refused None, None) class_world.
Proof.
  apply (unrelated_event_clears_only_error mage_refused (KeyMsg "x") class_world).
  exists select_keys. split; reflexivity.
Defined.

(** C7 on the field with a recorded error. *)
Lemma retreat_witness :
  exists s',
    Update mage_refused (KeyMsg "shift+tab") class_world
      = Ok (s', Some prevField) class_world
    /\ selected s' = selected mage_refused
    /\ value s' = value mage_refused
    /\ focused s' = focused mage_refused.
Proof.
  apply (retreat_signals_without_validation mage_refused select_keys
           "shift+tab" class_world);
    reflexivity.
Defined.

(** C8 on the class field: the user types 3, then 1. *)
Lemma accessible_choice_witness :
  match no_mage "Rogue" with
  | Some e =>
      exists w1,
        runAccessible (class_field 0 no_mage) [3; 1] class_world
          = promptLoop (class_field 0 no_mage) [1] w1
        /\ heap w1 = heap class_world
        /\ stdout w1 = stdout class_world ++
             [banner (class_field 0 no_mage) plain_theme; e +:+ newline]
        /\ validated w1 = validated class_world ++ ["Rogue"]
  | None =>
      exists w1,
        runAccessible (class_field 0 no_mage) [3; 1] class_world = Ok None w1
        /\ heap w1 = <[1%positive := "Rogue"]> (heap class_world)
        /\ stdout w1 = stdout class_world ++
             [banner (class_field 0 no_mage) plain_theme;
              ("Chose: " +:+ "Rogue" +:+ newline) +:+ newline]
        /\ validated w1 = validated class_world ++ ["Rogue"]
  end.
Proof.
  apply (accessible_choice_validated (class_field 0 no_mage) plain_theme 3 [1]
           class_world 1%positive no_mage (Option.mk "Rogue" "Rogue")).
  - reflexivity.
  - reflexivity.
  - reflexivity.
  - vm_compute. split; discriminate.
  - vm_compute. discriminate.
  - reflexivity.
Defined.

(** C9 for [NewSelect("Warrior", "Mage", "Rogue")]. *)
Lemma new_field_defaults_witness :
  exists s l,
    NewSelect ["Warrior"; "Mage"; "Rogue"]%string empty_world
      = Ok s (written empty_world l zero_value)
    /\ heap empty_world !! l = None
    /\ value s = Some l
    /\ validate s = Some always_valid
    /\ (forall v : string, always_valid v = None)
    /\ Error s = None
    /\ (forall (k : KeyMap) (calls : list Call) w1,
          ["Warrior"; "Mage"; "Rogue"]%string <> [] ->
          GoInt.len ["Warrior"; "Mage"; "Rogue"]%string <= GoInt.max_int ->
          is_Some (heap w1 !! l) ->
          exists s' cmds w2,
            drive (WithKeyMap s k) calls w1 = Ok (s', cmds) w2 /\ Error s' = None).
Proof.
  exact (new_field_defaults ["Warrior"; "Mage"; "Rogue"]%string empty_world).
Defined.

(** ** More of the example form *)

(** The focused class field with the cursor on "Mage" and an error
    recorded, as [View] draws it. *)
Example scenario_view :
  View plain_more String.length (set_focused mage_refused true) class_world
  = Ok (("*" +:+ newline) +:+ "  Warrior" +:+ newline +:+ "> Mage" +:+ newline
          +:+ "  Rogue")
       class_world.
Proof. vm_compute. reflexivity. Qed.

(** X1 on the class field: an advance on "Rogue". *)
Lemma advance_signal_only_after_write_witness :
  exists km k l f o,
    KeyMsg "enter" = KeyMsg k /\ keymap (class_field 2 always_valid) = Some km /\
    action km k = Advance /\
    value (class_field 2 always_valid) = Some l /\
    validate (class_field 2 always_valid) = Some f /\
    0 <= selected (class_field 2 always_valid) /\
    options (class_field 2 always_valid)
      !! Z.to_nat (selected (class_field 2 always_valid)) = Some o /\
    f (Option.Value o) = None /\
    heap (mkWorld {[ 1%positive := "Rogue" ]} ["Rogue"] []) !! l
      = Some (Option.Value o) /\
    Error (class_field 2 always_valid) = None.
Proof.
  apply (advance_signal_only_after_write
           (class_field 2 always_valid) (KeyMsg "enter") class_world
           (class_field 2 always_valid)
           (mkWorld {[ 1%positive := "Rogue" ]} ["Rogue"] [])).
  vm_compute. reflexivity.
Defined.

(** X2 on the field with a recorded error: a move down. *)
Lemma Update_changes_cursor_and_error_only_witness :
  set_selected (set_err (class_field 2 no_mage) (err mage_refused))
               (selected mage_refused) = mage_refused
  /\ stdout class_world = stdout class_world
  /\ (validated class_world = validated class_world
      \/ exists v, validated class_world = validated class_world ++ [v])
  /\ (forall l', value mage_refused <> Some l' ->
        heap class_world !! l' = heap class_world !! l').
Proof.
  apply (Update_changes_cursor_and_error_only
           mage_refused (KeyMsg "down") class_world
           (class_field 2 no_mage) None class_world).
  vm_compute. reflexivity.
Defined.

(** X3 on the class field: "down" and "j" are both move-down. *)
Lemma Update_reads_the_action_only_witness :
  Update (class_field 0 always_valid) (KeyMsg "down") class_world
  = Update (class_field 0 always_valid) (KeyMsg "j") class_world.
Proof.
  apply (Update_reads_the_action_only
           (class_field 0 always_valid) select_keys "down" "j" class_world);
    reflexivity.
Defined.

(** X4 on the class field with the cursor on 7, past the three options. *)
Lemma moves_clamp_from_any_cursor_witness :
  exists s',
    Update (class_field 7 always_valid) (KeyMsg "down") class_world
      = Ok (s', None) class_world
    /\ options s' = options (class_field 7 always_valid)
    /\ match action select_keys "down" with
       | MoveUp => 0 <= selected s'
       | MoveDown =>
           selected s' <= GoInt.len (options (class_field 7 always_valid)) - 1
       | _ => False
       end.
Proof.
  apply (moves_clamp_from_any_cursor
           (class_field 7 always_valid) select_keys "down" class_world).
  - reflexivity.
  - exists "down". split; [reflexivity | right; reflexivity].
  - vm_compute. discriminate.
Defined.

(** X5 on the class field: cursor on "Rogue", then only one option left. *)
Lemma Options_can_strand_the_cursor_witness :
  selected (Options (class_field 2 always_valid) [Option.mk "Warrior" "Warrior"])
    = selected (class_field 2 always_valid)
  /\ Update (Options (class_field 2 always_valid) [Option.mk "Warrior" "Warrior"])
            (KeyMsg "enter") class_world
     = Panicked (IndexOutOfRange (selected (class_field 2 always_valid))
                                 (GoInt.len [Option.mk "Warrior" "Warrior"])).
Proof.
  apply (Options_can_strand_the_cursor
           (class_field 2 always_valid) select_keys "enter" class_world
           [Option.mk "Warrior" "Warrior"]).
  - reflexivity.
  - reflexivity.
  - right. vm_compute. discriminate.
Defined.

(** X6 on the class field, rebound from cell 1 to cell 2. *)
Lemma Value_rebinds_the_cell_witness :
  exists s' w',
    Update (Value (class_field 2 always_valid) (Some 2%positive))
           (KeyMsg "enter") class_world
      = Ok (s', Some nextField) w'
    /\ heap w' !! 2%positive = Some (Option.Value (Option.mk "Rogue" "Rogue"))
    /\ (forall l, l <> 2%positive -> heap w' !! l = heap class_world !! l).
Proof.
  apply (Value_rebinds_the_cell
           (class_field 2 always_valid) select_keys "enter" class_world
           2%positive always_valid (Option.mk "Rogue" "Rogue"));
    [reflexivity | reflexivity | reflexivity | simpl; lia
    | reflexivity | reflexivity].
Defined.

(** X7 on the class field with the validator that turns mages away. *)
Lemma well_formed_field_never_panics_witness :
  exists s' cmds w',
    drive (class_field 1 no_mage)
          [CallFocus; CallUpdate (KeyMsg "enter"); CallUpdate (KeyMsg "down");
           CallUpdate (KeyMsg "enter"); CallBlur]
          class_world
      = Ok (s', cmds) w'
    /\ well_formed select_keys 1%positive no_mage s'
    /\ options s' = options (class_field 1 no_mage)
    /\ is_Some (heap w' !! 1%positive).
Proof.
  apply (well_formed_field_never_panics select_keys 1%positive no_mage).
  - unfold well_formed. repeat split; try reflexivity; vm_compute; discriminate.
  - exists "". reflexivity.
Defined.

(** X8 on the class field: advance on "Rogue", then blur. *)
Lemma advance_then_blur_records_no_error_witness :
  exists s' w',
    drive (class_field 2 no_mage) [CallUpdate (KeyMsg "enter"); CallBlur] class_world
      = Ok (s', [nextField]) w'
    /\ Error s' = None
    /\ focused s' = false
    /\ selected s' = selected (class_field 2 no_mage)
    /\ heap w' !! 1%positive = Some (Option.Value (Option.mk "Rogue" "Rogue"))
    /\ validated w' = validated class_world
         ++ [Option.Value (Option.mk "Rogue" "Rogue");
             Option.Value (Option.mk "Rogue" "Rogue")].
Proof.
  apply (advance_then_blur_records_no_error
           (class_field 2 no_mage) select_keys "enter" class_world
           1%positive no_mage (Option.mk "Rogue" "Rogue"));
    [reflexivity | reflexivity | reflexivity | reflexivity | simpl; lia
    | reflexivity | reflexivity].
Defined.

(** X9 for [NewSelect("Warrior", "Mage", "Rogue")]: down, down, enter. *)
Lemma NewSelect_then_choose_nth_witness :
  exists s l w0 s' w',
    NewSelect ["Warrior"; "Mage"; "Rogue"] empty_world = Ok s w0
    /\ value s = Some l
    /\ Updates (WithKeyMap s (mkKeyMap select_keys))
               (replicate 2 (KeyMsg "down") ++ [KeyMsg "enter"]) w0
       = Ok (s', [nextField]) w'
    /\ heap w' !! l = Some "Rogue"
    /\ selected s' = Z.of_nat 2
    /\ Error s' = None.
Proof.
  apply (NewSelect_then_choose_nth ["Warrior"; "Mage"; "Rogue"] 2 "Rogue"
           select_keys "down" "enter" empty_world).
  - reflexivity.
  - reflexivity.
  - reflexivity.
  - vm_compute. discriminate.
Defined.

(** X11 on the class field: 7 is no option number, "Mage" is refused. *)
Lemma runAccessible_settles_on_first_accepted_witness :
  match first_accepted no_mage (options (class_field 0 no_mage)) [7; 2; 3] with
  | Some o =>
      exists w', runAccessible (class_field 0 no_mage) [7; 2; 3] class_world
                   = Ok None w'
                 /\ heap w' = <[1%positive := Option.Value o]> (heap class_world)
  | None =>
      exists w', runAccessible (class_field 0 no_mage) [7; 2; 3] class_world
                   = AwaitingInput w'
                 /\ heap w' = heap class_world
  end.
Proof.
  apply (runAccessible_settles_on_first_accepted
           (class_field 0 no_mage) plain_theme 1%positive no_mage [7; 2; 3]
           class_world).
  - reflexivity.
  - reflexivity.
  - reflexivity.
  - vm_compute. discriminate.
Defined.

(** X12 on the class field without its options. *)
Lemma runAccessible_without_options_waits_witness :
  runAccessible (set_options (class_field 0 always_valid) []) [1; 0; 2] class_world
  = AwaitingInput
      (printed class_world
         [banner (set_options (class_field 0 always_valid) []) plain_theme]).
Proof.
  apply (runAccessible_without_options_waits
           (set_options (class_field 0 always_valid) []) plain_theme [1; 0; 2]
           class_world);
    reflexivity.
Defined.

(** X13 on the class field, cursor on "Mage". *)
Lemma View_draws_one_row_per_option_witness :
  exists styles,
    styles = (if focused (class_field 1 always_valid)
              then Focused plain_theme else Blurred plain_theme)
    /\ View plain_more String.length (class_field 1 always_valid) class_world =
         Ok (lipgloss.Render (FieldStyles.Base styles)
               (view_header plain_more (class_field 1 always_valid) styles
                +:+ String.concat newline
                      (imap (view_row plain_more String.length
                               (class_field 1 always_valid) styles)
                            (options (class_field 1 always_valid)))))
            class_world
    /\ length (imap (view_row plain_more String.length
                       (class_field 1 always_valid) styles)
                    (options (class_field 1 always_valid)))
       = length (options (class_field 1 always_valid)).
Proof.
  apply (View_draws_one_row_per_option plain_more String.length
           (class_field 1 always_valid) plain_theme class_world).
  - reflexivity.
  - vm_compute. discriminate.
Defined.

(** X14 on the class field with the cursor on 5. *)
Lemma View_with_stranded_cursor_selects_no_row_witness :
  View plain_more String.length (class_field 5 always_valid) class_world =
    Ok (lipgloss.Render
          (FieldStyles.Base
             (if focused (class_field 5 always_valid)
              then Focused plain_theme else Blurred plain_theme))
          (view_header plain_more (class_field 5 always_valid)
             (if focused (class_field 5 always_valid)
              then Focused plain_theme else Blurred plain_theme)
           +:+ String.concat newline
                 (map (view_plain_row plain_more String.length
                         (if focused (class_field 5 always_valid)
                          then Focused plain_theme else Blurred plain_theme))
                      (options (class_field 5 always_valid)))))
       class_world.
Proof.
  apply (View_with_stranded_cursor_selects_no_row plain_more String.length
           (class_field 5 always_valid) plain_theme class_world).
  - reflexivity.
  - vm_compute. discriminate.
  - right. vm_compute. discriminate.
Defined.

(** X16 for the three classes. *)
Lemma listing_numbers_match_choices_witness :
  listing 0 (options (class_field 0 always_valid))
    = String.concat "" (listing_lines (options (class_field 0 always_valid)))
  /\ length (listing_lines (options (class_field 0 always_valid)))
     = length (options (class_field 0 always_valid))
  /\ (forall (c : Z) (o : Option.t string),
        1 <= c ->
        options (class_field 0 always_valid) !! Z.to_nat (c - 1) = Some o ->
        listing_lines (options (class_field 0 always_valid)) !! Z.to_nat (c - 1)
        = Some (pretty c +:+ ". " +:+ Option.Key o +:+ newline)).
Proof.
  apply (listing_numbers_match_choices (options (class_field 0 always_valid))).
  vm_compute. discriminate.
Defined.

(** X17 on the class field: "Rogue" by keys and by number. *)
Lemma both_paths_write_the_same_value_witness :
  exists s' w1 w2,
    Updates (class_field 0 no_mage)
            (replicate 2 (KeyMsg "down") ++ [KeyMsg "enter"]) class_world
      = Ok (s', [nextField]) w1
    /\ runAccessible (class_field 0 no_mage) [Z.of_nat 2 + 1] class_world
       = Ok None w2
    /\ heap w1 = heap w2
    /\ heap w1 !! 1%positive = Some (Option.Value (Option.mk "Rogue" "Rogue")).
Proof.
  apply (both_paths_write_the_same_value
           (class_field 0 no_mage) select_keys plain_theme "down" "enter"
           1%positive no_mage (Option.mk "Rogue" "Rogue") 2 class_world);
    try reflexivity.
  vm_compute. discriminate.
Defined.

(** X18 on two class fields bound to cell 1. *)
Lemma shared_cell_is_seen_by_both_fields_witness :
  exists s1' w1 s2' w2,
    Update (class_field 1 always_valid) (KeyMsg "enter") class_world
      = Ok (s1', Some nextField) w1
    /\ Blur (class_field 0 no_mage) w1 = Ok (s2', None) w2
    /\ Error s2' = no_mage (Option.Value (Option.mk "Mage" "Mage"))
    /\ validated w2 = validated class_world
         ++ [Option.Value (Option.mk "Mage" "Mage");
             Option.Value (Option.mk "Mage" "Mage")].
Proof.
  apply (shared_cell_is_seen_by_both_fields
           (class_field 1 always_valid) (class_field 0 no_mage) select_keys
           "enter" class_world 1%positive always_valid no_mage
           (Option.mk "Mage" "Mage"));
    [reflexivity | reflexivity | reflexivity | reflexivity | reflexivity
    | reflexivity | simpl; lia | reflexivity | reflexivity].
Defined.
